(** * enterprython: type-based dependency injection

    A shallow embedding of [enterprython/_inject.py].  The module keeps one
    process-wide list of registered components; [assemble] builds an
    instance of a class by looking at the annotations of its constructor
    parameters and recursively assembling the registered components that
    match them.

    What the Python runtime supplies ([inspect.signature], [inspect.getmro],
    [inspect.isabstract], calling a class) is taken from a class table, a
    variable of the section below.  Objects live in a heap and are known by
    their address, so that [is] on instances is equality of addresses, and
    calling a class allocates a new address.  The targets of [assemble] are
    classes; [assert] statements are executed; [_is_list_type] is the one of
    Python 3.7 and later.  [configure] and [value], the configuration store,
    touch nothing of what follows and are left out. *)

From stdpp Require Import base option list gmap strings.

(** ** Values, annotations, signatures *)

Definition cname := string.
Definition addr := nat.

(** Python values as far as the injector passes them around.  Instances of
    classes are references into the heap. *)
#[warnings="-register-all"]
Inductive value : Type :=
  | VNone
  | VInt (z : Z)
  | VStr (s : string)
  | VRef (a : addr)
  | VList (vs : list value).

(** [param.annotation]: [inspect.Parameter.empty] when the parameter carries
    no annotation, a class, [typing.List[elem]], or anything else. *)
Inductive annotation : Type :=
  | AnnEmpty
  | AnnClass (c : cname)
  | AnnList (elem : annotation)
  | AnnOther (repr : string).

Inductive param_kind : Type :=
  | POSITIONAL_ONLY
  | POSITIONAL_OR_KEYWORD
  | VAR_POSITIONAL
  | KEYWORD_ONLY
  | VAR_KEYWORD.

Record Param := {
  p_name : string;
  p_kind : param_kind;
  p_annotation : annotation;
  p_default : option value
}.

(** What reflection tells about a class: the method resolution order after
    the class itself, whether it is abstract, and the parameters that
    [inspect.signature] reports for it. *)
Record class_info := {
  cls_bases : list cname;
  cls_abstract : bool;
  cls_signature : list Param
}.

(** The argument of the [component()] decorator. *)
Inductive target : Type :=
  | TClass (c : cname)
  | TFunction (f : string).

(** ** Components, heap, state *)

Record _Component := {
  _type : cname;
  _is_singleton : bool;
  _base_classes : list cname;
  _instance : option addr
}.

Record object := {
  obj_class : cname;
  obj_fields : gmap string value
}.

Record state := {
  ENTERPRYTHON_COMPONENTS : list _Component;
  heap : list object
}.

Definition empty_state : state :=
  {| ENTERPRYTHON_COMPONENTS := []; heap := [] |}.

(** ** Exceptions and the state-and-exception monad *)

Inductive type_error : Type :=
  | OnlyPositionalOrKeyword
  | AmbiguousDependency (the_type : annotation)
  | AlreadyRegistered (the_type : cname)
  | OnlyClassesCanBeRegistered
  | AbstractClassAsComponent
  | CannotInstantiateAbstract (the_type : cname)
  | UnexpectedKeywordArgument
  | MissingArguments (names : list string).

Inductive exn : Type :=
  | TypeError (e : type_error)
  | AssertionError.

Inductive outcome (A : Type) : Type :=
  | Ok (a : A)
  | Raise (e : exn)
  | OutOfFuel.
Arguments Ok {A} a.
Arguments Raise {A} e.
Arguments OutOfFuel {A}.

(** A computation always hands back the state: what a call has mutated
    stays mutated when it raises. *)
Definition M (A : Type) : Type := state → outcome A * state.

Definition ret {A} (a : A) : M A := λ st, (Ok a, st).
Definition raise {A} (e : exn) : M A := λ st, (Raise e, st).
Definition out_of_fuel {A} : M A := λ st, (OutOfFuel, st).
Definition bind {A B} (m : M A) (k : A → M B) : M B := λ st,
  match m st with
  | (Ok a, st') => k a st'
  | (Raise e, st') => (Raise e, st')
  | (OutOfFuel, st') => (OutOfFuel, st')
  end.
Definition gets {A} (f : state → A) : M A := λ st, (Ok (f st), st).

Notation "x <- m ;; k" := (bind m (λ x, k))
  (at level 100, m at next level, right associativity).
Notation "m ;;; k" := (bind m (λ _, k))
  (at level 100, right associativity).

Fixpoint mapM {A B} (f : A → M B) (l : list A) : M (list B) :=
  match l with
  | [] => ret []
  | x :: xs => y <- f x ;; ys <- mapM f xs ;; ret (y :: ys)
  end.

(** ** _Component *)

(** [_Component.__init__] *)
Definition new_component (base_classes : list cname) (the_type : cname)
    (singleton : bool) : _Component :=
  {| _type := the_type; _is_singleton := singleton;
     _base_classes := base_classes; _instance := None |}.

(** [the_type in self._base_classes]: only a class can be an element of a
    method resolution order. *)
Definition matches (c : _Component) (the_type : annotation) : bool :=
  match the_type with
  | AnnClass t => bool_decide (t ∈ _base_classes c)
  | _ => false
  end.

Definition get_type (c : _Component) : cname := _type c.

(** [get_instance] is called on the component just looked up, so it reads
    the component as found. *)
Definition get_instance (c : _Component) : M (option addr) :=
  if _is_singleton c || bool_decide (_instance c = None)
  then ret (_instance c)
  else raise AssertionError.

(** A stored component is referred to by its position in
    [ENTERPRYTHON_COMPONENTS], which only ever grows at the end. *)
Definition set_instance_if_singleton (r : nat) (instance : addr) : M unit :=
  λ st,
  match ENTERPRYTHON_COMPONENTS st !! r with
  | Some c =>
      if _is_singleton c then
        match _instance c with
        | None =>
            (Ok (),
             {| ENTERPRYTHON_COMPONENTS :=
                  <[r := {| _type := _type c;
                            _is_singleton := _is_singleton c;
                            _base_classes := _base_classes c;
                            _instance := Some instance |}]>
                    (ENTERPRYTHON_COMPONENTS st);
                heap := heap st |})
        | Some _ => (Raise AssertionError, st)
        end
      else (Ok (), st)
  | None => (Ok (), st)
  end.

(** ** Lookup in the registry *)

Definition _get_components (the_type : annotation) (st : state)
    : list (nat * _Component) :=
  filter (λ rc, Is_true (matches rc.2 the_type))
         (imap pair (ENTERPRYTHON_COMPONENTS st)).

Definition _get_component (the_type : annotation)
    : M (option (nat * _Component)) :=
  components <- gets (_get_components the_type) ;;
  if bool_decide (1 < length components)
  then raise (TypeError (AmbiguousDependency the_type))
  else match components with
       | [] => ret None
       | c :: _ => ret (Some c)
       end.

Definition _is_list_type (the_type : annotation) : bool :=
  match the_type with
  | AnnList _ => true
  | _ => false
  end.

Definition _get_list_type_elem_type (list_type : annotation) : M annotation :=
  match list_type with
  | AnnList elem => ret elem
  | _ => raise AssertionError
  end.

(** ** The part that depends on the class table *)

Section Injector.

Variable classes : cname → class_info.

(** [inspect.getmro] *)
Definition getmro (the_type : cname) : list cname :=
  the_type :: cls_bases (classes the_type).

Definition _add_component (the_type : cname) (singleton : bool) : M unit :=
  found <- _get_component (AnnClass the_type) ;;
  match found with
  | Some _ => raise (TypeError (AlreadyRegistered the_type))
  | None =>
      λ st,
      (Ok (),
       {| ENTERPRYTHON_COMPONENTS :=
            ENTERPRYTHON_COMPONENTS st
              ++ [new_component (getmro the_type) the_type singleton];
          heap := heap st |})
  end.

(** [component(singleton)(the_type)] *)
Definition component (singleton : bool) (the_type : target) : M target :=
  match the_type with
  | TFunction _ => raise (TypeError OnlyClassesCanBeRegistered)
  | TClass c =>
      if cls_abstract (classes c)
      then raise (TypeError AbstractClassAsComponent)
      else _add_component c singleton ;;; ret the_type
  end.

(** The first loop of [assemble], lines 76 to 83: names and annotations of
    the parameters.  Names are unique in a signature, so the dictionary is
    the list of its items. *)
Fixpoint collect_parameters (params : list Param)
    : M (list (string * annotation)) :=
  match params with
  | [] => ret []
  | param :: rest =>
      if bool_decide (p_name param = "self") then collect_parameters rest
      else
        match p_kind param with
        | POSITIONAL_OR_KEYWORD =>
            ps <- collect_parameters rest ;;
            ret ((p_name param, p_annotation param) :: ps)
        | _ => raise (TypeError OnlyPositionalOrKeyword)
        end
  end.

(** Body of the second loop, lines 87 to 95, for one parameter; [rec]
    stands for the recursive calls of [assemble]. *)
Definition bind_parameter (rec : cname → gmap string value → M addr)
    (parameter : string * annotation) (arguments : gmap string value)
    : M (gmap string value) :=
  let '(parameter_name, parameter_type) := parameter in
  if _is_list_type parameter_type then
    elem_type <- _get_list_type_elem_type parameter_type ;;
    parameter_components <- gets (_get_components elem_type) ;;
    instances <- mapM (λ t, rec t ∅)
                      (map (λ comp, get_type comp.2) parameter_components) ;;
    ret (<[parameter_name := VList (VRef <$> instances)]> arguments)
  else
    parameter_component <- _get_component parameter_type ;;
    match parameter_component with
    | Some comp =>
        instance <- rec (get_type comp.2) ∅ ;;
        ret (<[parameter_name := VRef instance]> arguments)
    | None => ret arguments
    end.

Fixpoint bind_parameters (rec : cname → gmap string value → M addr)
    (parameters : list (string * annotation)) (arguments : gmap string value)
    : M (gmap string value) :=
  match parameters with
  | [] => ret arguments
  | parameter :: rest =>
      arguments' <- bind_parameter rec parameter arguments ;;
      bind_parameters rec rest arguments'
  end.

(** Line 96, calling the class with the keyword arguments.  Python refuses
    an abstract class, a keyword that is no parameter and a parameter left
    without a value, each with a [TypeError]; otherwise a new object is
    allocated whose attributes are the bound arguments, declared defaults
    filling the gaps.  When several of the three refusals apply, which of
    them Python reports depends on whether the class has an [__init__] of
    its own; [call] tests them in one fixed order, and the theorems below
    that name the error of a refused call leave the choice open. *)
Definition bound_value (arguments : gmap string value) (param : Param)
    : option value :=
  match arguments !! p_name param with
  | Some v => Some v
  | None => p_default param
  end.

Definition missing_arguments (signature : list Param)
    (arguments : gmap string value) : list string :=
  p_name <$> filter (λ param, bound_value arguments param = None) signature.

Definition unexpected_keywords (signature : list Param)
    (arguments : gmap string value) : list string :=
  filter (λ k, k ∉ (p_name <$> signature)) (map_to_list arguments).*1.

Definition bound_fields (signature : list Param)
    (arguments : gmap string value) : gmap string value :=
  list_to_map
    (omap (λ param, (λ v, (p_name param, v)) <$> bound_value arguments param)
          signature).

Definition call (the_type : cname) (arguments : gmap string value) : M addr :=
  let signature := cls_signature (classes the_type) in
  if cls_abstract (classes the_type) then
    raise (TypeError (CannotInstantiateAbstract the_type))
  else if bool_decide (unexpected_keywords signature arguments ≠ []) then
    raise (TypeError UnexpectedKeywordArgument)
  else if bool_decide (missing_arguments signature arguments ≠ []) then
    raise (TypeError (MissingArguments (missing_arguments signature arguments)))
  else
    λ st,
    (Ok (length (heap st)),
     {| ENTERPRYTHON_COMPONENTS := ENTERPRYTHON_COMPONENTS st;
        heap := heap st ++ [ {| obj_class := the_type;
                                obj_fields := bound_fields signature arguments |} ] |}).

(** Lines 74 to 99 of [assemble]: inspect the signature, resolve the
    arguments, call the class and cache the result in the component found
    at the start.  [rec] stands for the recursive calls. *)
Definition construct (rec : cname → gmap string value → M addr)
    (the_type : cname) (kwargs : gmap string value)
    (stored_component : option (nat * _Component)) : M addr :=
  parameters <- collect_parameters (cls_signature (classes the_type)) ;;
  arguments <- bind_parameters rec parameters kwargs ;;
  result <- call the_type arguments ;;
  match stored_component with
  | Some comp => set_instance_if_singleton comp.1 result
  | None => ret ()
  end ;;;
  ret result.

(** [assemble(the_type, **kwargs)].  The recursion of the source has no
    bound (a cycle among the components never returns), hence the fuel. *)
Fixpoint assemble (fuel : nat) (the_type : cname) (kwargs : gmap string value)
    {struct fuel} : M addr :=
  match fuel with
  | 0 => out_of_fuel
  | S fuel' =>
      stored_component <- _get_component (AnnClass the_type) ;;
      instance <- match stored_component with
                  | Some comp => get_instance comp.2
                  | None => ret None
                  end ;;
      match instance with
      | Some inst => ret inst
      | None => construct (assemble fuel') the_type kwargs stored_component
      end
  end.

End Injector.

(** ** How the state may change *)

(** A stored component keeps its type, flag and base classes.  An instance
    once cached stays; an empty cache can only be filled, in a singleton,
    with an object allocated at an address from [lo] up to [hi]. *)
Definition evolves (lo hi : nat) (c c' : _Component) : Prop :=
  _type c' = _type c ∧
  _is_singleton c' = _is_singleton c ∧
  _base_classes c' = _base_classes c ∧
  match _instance c with
  | Some a => _instance c' = Some a
  | None => ∀ a, _instance c' = Some a → _is_singleton c = true ∧ lo ≤ a < hi
  end.

(** What one call of [assemble] may do: allocate, and fill caches. *)
Definition advance (st st' : state) : Prop :=
  heap st `prefix_of` heap st' ∧
  Forall2 (evolves (length (heap st)) (length (heap st')))
          (ENTERPRYTHON_COMPONENTS st) (ENTERPRYTHON_COMPONENTS st').

(** The same, when components may also have been registered meanwhile. *)
Definition extends (st st' : state) : Prop :=
  heap st `prefix_of` heap st' ∧
  ∀ r c, ENTERPRYTHON_COMPONENTS st !! r = Some c →
    ∃ c', ENTERPRYTHON_COMPONENTS st' !! r = Some c' ∧
          evolves (length (heap st)) (length (heap st')) c c'.

(** [assemble] for each type in turn, threading the state: the meaning of
    [list(map(assemble, types))]. *)
Inductive assemble_each (rec : cname → gmap string value → M addr)
    : list cname → state → list addr → state → Prop :=
  | assemble_each_nil st : assemble_each rec [] st [] st
  | assemble_each_cons t ts st a st1 instances st2 :
      rec t ∅ st = (Ok a, st1) →
      assemble_each rec ts st1 instances st2 →
      assemble_each rec (t :: ts) st (a :: instances) st2.

(** No component found for [the_type] holds a cached instance, so that
    [assemble] goes on to construct. *)
Definition nothing_cached (the_type : cname) (st : state) : Prop :=
  Forall (λ rc, _instance rc.2 = None) (_get_components (AnnClass the_type) st).

(** [m'] does what [m] does whenever [m] does not run out of fuel. *)
Definition settles {A} (m m' : M A) : Prop :=
  ∀ st o st', m st = (o, st') → o ≠ OutOfFuel → m' st = (o, st').

(** What the recursive calls are only assumed to do in the lemmas about the
    loops. *)
Definition advancing (rec : cname → gmap string value → M addr) : Prop :=
  ∀ t kw st o st', rec t kw st = (o, st') → advance st st'.

(** One operation of the module on the registry: a call of [assemble] or a
    use of the [component] decorator, whatever its outcome. *)
Inductive step (classes : cname → class_info) : state → state → Prop :=
  | step_assemble fuel the_type kwargs st o st' :
      assemble classes fuel the_type kwargs st = (o, st') → step classes st st'
  | step_component singleton the_type st o st' :
      component classes singleton the_type st = (o, st') → step classes st st'.

(** ** Invariants of the registry *)

(** What registration fixes of a component for good. *)
Definition static (c : _Component) : cname * bool * list cname :=
  (_type c, _is_singleton c, _base_classes c).

(** Every component carries the method resolution order of a class that is
    not abstract, and no component is registered for a class that an
    earlier component already provides. *)
Definition well_formed (classes : cname → class_info) (st : state) : Prop :=
  (∀ r c, ENTERPRYTHON_COMPONENTS st !! r = Some c →
     _base_classes c = getmro classes (_type c) ∧
     cls_abstract (classes (_type c)) = false) ∧
  (∀ r r' c c', r' < r →
     ENTERPRYTHON_COMPONENTS st !! r' = Some c' →
     ENTERPRYTHON_COMPONENTS st !! r = Some c →
     _type c ∉ _base_classes c').

(** Only singletons hold an instance, and the instance held is an object of
    the heap whose class is one the component is found for. *)
Definition cache_sound (st : state) : Prop :=
  ∀ r c a, ENTERPRYTHON_COMPONENTS st !! r = Some c → _instance c = Some a →
    _is_singleton c = true ∧
    ∃ o, heap st !! a = Some o ∧ obj_class o ∈ _base_classes c.

(** The state after [_add_component] has appended. *)
Definition with_component (classes : cname → class_info) (st : state)
    (the_type : cname) (singleton : bool) : state :=
  {| ENTERPRYTHON_COMPONENTS :=
       ENTERPRYTHON_COMPONENTS st
         ++ [new_component (getmro classes the_type) the_type singleton];
     heap := heap st |}.

(** ** The classes of the test suite

    The classes of [tests.py] that this version of the injector knows how
    to handle, with the signatures and base classes Python reports for
    them, registered in the order of the file. *)

Module Tests.

Definition needs (name : string) (the_type : annotation) : Param :=
  {| p_name := name; p_kind := POSITIONAL_OR_KEYWORD;
     p_annotation := the_type; p_default := None |}.

Definition optional (name : string) (the_type : annotation) (v : value) : Param :=
  {| p_name := name; p_kind := POSITIONAL_OR_KEYWORD;
     p_annotation := the_type; p_default := Some v |}.

Definition plain (bases : list cname) (signature : list Param) : class_info :=
  {| cls_bases := bases; cls_abstract := false; cls_signature := signature |}.

(** Addresses of the objects that exist before any [assemble]: the two
    default arguments [ServiceB('BDefault')] and
    [ServiceCNoComponent('CDefault')], and the [ServiceB('BManual')] that
    [test_manual_overwrite] passes in. *)
Definition b_default : addr := 0.
Definition c_default : addr := 1.
Definition b_manual : addr := 2.

Definition table : list (cname * class_info) :=
  [ ("ServiceInterface",
      {| cls_bases := ["ABC"; "object"]; cls_abstract := true; cls_signature := [] |});
    ("Service", plain ["ServiceInterface"; "ABC"; "object"] []);
    ("ServiceNonSingleton", plain ["object"] []);
    ("Client", plain ["object"] [needs "service" (AnnClass "Service")]);
    ("ClientNonSingleton", plain ["object"]
       [needs "service" (AnnClass "ServiceNonSingleton")]);
    ("ClientWithoutTypeAnnotation", plain ["object"] [needs "service" AnnEmpty]);
    ("Layer3", plain ["tuple"; "object"] [optional "value" (AnnClass "int") (VInt 42)]);
    ("Layer2", plain ["tuple"; "object"] [needs "service" (AnnClass "Layer3")]);
    ("Layer1", plain ["tuple"; "object"] [needs "service" (AnnClass "Layer2")]);
    ("ServiceA", plain ["tuple"; "object"] [optional "value" (AnnClass "str") (VStr "A")]);
    ("ServiceB", plain ["tuple"; "object"] [optional "value" (AnnClass "str") (VStr "B")]);
    ("ServiceCNoComponent", plain ["tuple"; "object"]
       [optional "value" (AnnClass "str") (VStr "C")]);
    ("ClientAB", plain ["tuple"; "object"]
       [needs "service_a" (AnnClass "ServiceA"); needs "service_b" (AnnClass "ServiceB")]);
    ("ClientABDefaultB", plain ["tuple"; "object"]
       [needs "service_a" (AnnClass "ServiceA");
        optional "service_b" (AnnClass "ServiceB") (VRef b_default)]);
    ("ClientACDefaultC", plain ["tuple"; "object"]
       [needs "service_a" (AnnClass "ServiceA");
        optional "service_c" (AnnClass "ServiceCNoComponent") (VRef c_default)]);
    ("ClientKWArg", plain ["object"]
       [needs "service" (AnnClass "Service"); needs "name" (AnnClass "str")]);
    ("ClientDependingOnInterface", plain ["object"]
       [needs "service" (AnnClass "ServiceInterface")]);
    ("MultiServiceInterface", plain ["ABC"; "object"] []);
    ("ServiceMultiA", plain ["MultiServiceInterface"; "ABC"; "object"] []);
    ("ServiceMultiB", plain ["MultiServiceInterface"; "ABC"; "object"] []);
    ("ClientDependingOnOneOfTwoServices", plain ["object"]
       [needs "service" (AnnClass "MultiServiceInterface")]);
    ("ClientDependingOnAllMultiServiceInterfaceImpls", plain ["object"]
       [needs "services" (AnnList (AnnClass "MultiServiceInterface"))]) ].

(** Any other name is a class without constructor parameters ([str],
    [int], [object]). *)
Definition classes (c : cname) : class_info :=
  default (plain ["object"] [])
          ((list_to_map table : gmap cname class_info) !! c).

Definition instance_of (c : cname) (v : string) : object :=
  {| obj_class := c; obj_fields := {[ "value" := VStr v ]} |}.

Definition at_import : state :=
  {| ENTERPRYTHON_COMPONENTS := [];
     heap := [ instance_of "ServiceB" "BDefault";
               instance_of "ServiceCNoComponent" "CDefault";
               instance_of "ServiceB" "BManual" ] |}.

Definition decorated : list (cname * bool) :=
  [ ("Service", true); ("ServiceNonSingleton", false);
    ("Layer3", true); ("Layer2", true);
    ("ServiceA", true); ("ServiceB", true);
    ("ClientAB", true); ("ClientABDefaultB", true); ("ClientACDefaultC", true);
    ("ServiceMultiA", true); ("ServiceMultiB", true) ].

(** The state once the module of the tests is loaded. *)
Definition loaded : state :=
  foldl (λ st d, (component classes d.2 (TClass d.1) st).2) at_import decorated.

(** The attribute [field] of the object at [a]. *)
Definition attribute (st : state) (a : addr) (field : string) : option value :=
  o ← heap st !! a; obj_fields o !! field.

(** The state a computation leaves. *)
Definition after {A} (m : M A) (st : state) : state := (m st).2.

(** Only [Service], or only [ServiceNonSingleton], decorated. *)
Definition service_only : state :=
  after (component classes true (TClass "Service")) at_import.

End Tests.

(** ** Two more targets

    The classes of the tests, and two targets the tests do not have: a
    class whose constructor takes [*args], and a function with a parameter
    named [self]. *)

Module Scenes.

Definition table : list (cname * class_info) :=
  Tests.table ++
  [ ("Variadic", Tests.plain ["object"]
       [ {| p_name := "args"; p_kind := VAR_POSITIONAL;
            p_annotation := AnnEmpty; p_default := None |} ]);
    ("greet", Tests.plain ["object"]
       [ Tests.needs "self" (AnnClass "Service") ]) ].

Definition classes (c : cname) : class_info :=
  default (Tests.plain ["object"] [])
          ((list_to_map table : gmap cname class_info) !! c).

(** [MultiServiceInterface], which is not abstract, decorated, then
    [ServiceMultiA]. *)
Definition base_registered : state :=
  Tests.after (component Tests.classes true (TClass "MultiServiceInterface"))
              Tests.at_import.
Definition base_and_derived : state :=
  Tests.after (component Tests.classes true (TClass "ServiceMultiA")) base_registered.

(** Only [ServiceMultiA] decorated. *)
Definition derived_only : state :=
  Tests.after (component Tests.classes true (TClass "ServiceMultiA")) Tests.at_import.

End Scenes.

(** ** The instance injected for a component

    [instance] is what a call of [assemble] that started in [st] and ended
    in [st'] injected for the stored component [comp]: the instance the
    component had cached at the start, when it had one, and otherwise an
    object allocated during the call, before the address [limit].  For a
    singleton it is what the component has cached in the end; for any
    other component it is an object of the component's own class. *)
Definition resolved (st st' : state) (limit : addr)
    (comp : nat * _Component) (instance : addr) : Prop :=
  (∀ cached, _instance comp.2 = Some cached → instance = cached) ∧
  (_instance comp.2 = None → length (heap st) ≤ instance < limit) ∧
  (_is_singleton comp.2 = true →
   ∃ c', ENTERPRYTHON_COMPONENTS st' !! comp.1 = Some c' ∧
         _instance c' = Some instance) ∧
  (_is_singleton comp.2 = false →
   ∃ o, heap st' !! instance = Some o ∧ obj_class o = _type comp.2).

(** ** A class that depends on its own subclass

    [Leaf] derives from [Node], and the constructor of [Node] takes a
    [Leaf]; only [Leaf] is registered. *)

Module Nested.

Definition table : list (cname * class_info) :=
  [ ("Node", Tests.plain ["object"] [ Tests.needs "next" (AnnClass "Leaf") ]);
    ("Leaf", Tests.plain ["Node"; "object"] []) ].

Definition classes (c : cname) : class_info :=
  default (Tests.plain ["object"] [])
          ((list_to_map table : gmap cname class_info) !! c).

Definition leaf_only : state :=
  Tests.after (component classes true (TClass "Leaf")) empty_state.

End Nested.

(** ** The monad *)

Lemma bind_inv {A B} (m : M A) (k : A → M B) st o st' :
  bind m k st = (o, st') →
  (∃ a s1, m st = (Ok a, s1) ∧ k a s1 = (o, st')) ∨
  (∃ e, m st = (Raise e, st') ∧ o = Raise e) ∨
  (m st = (OutOfFuel, st') ∧ o = OutOfFuel).
Proof.
  unfold bind. destruct (m st) as [[a|e|] s1]; intros H.
  - left. eauto.
  - right; left. inversion H; subst. eauto.
  - right; right. inversion H; subst. eauto.
Qed.

Lemma bind_Ok_inv {A B} (m : M A) (k : A → M B) st b st' :
  bind m k st = (Ok b, st') →
  ∃ a s1, m st = (Ok a, s1) ∧ k a s1 = (Ok b, st').
Proof.
  intros H. apply bind_inv in H as [H|[(e & _ & H)|[_ H]]]; [done|done..].
Qed.

Lemma bind_Ok {A B} (m : M A) (k : A → M B) st a s1 :
  m st = (Ok a, s1) → bind m k st = k a s1.
Proof. unfold bind. by intros ->. Qed.

(** ** Relations between states *)

Lemma evolves_refl lo hi c : evolves lo hi c c.
Proof. unfold evolves. destruct (_instance c); naive_solver. Qed.

Lemma evolves_trans lo mid hi lo' hi' c1 c2 c3 :
  lo' ≤ lo → lo' ≤ mid → mid ≤ hi' → hi ≤ hi' →
  evolves lo mid c1 c2 → evolves mid hi c2 c3 → evolves lo' hi' c1 c3.
Proof.
  unfold evolves. intros ? ? ? ? (?&?&?&H12) (?&?&?&H23).
  repeat split; try congruence.
  destruct (_instance c1) as [a1|].
  - rewrite H12 in H23. done.
  - intros a Ha. destruct (_instance c2) as [a2|].
    + rewrite H23 in Ha. simplify_eq. destruct (H12 a eq_refl). split; [done|lia].
    + destruct (H23 a Ha). split; [congruence|lia].
Qed.

Lemma evolves_weaken lo hi lo' hi' c c' :
  lo' ≤ lo → hi ≤ hi' → evolves lo hi c c' → evolves lo' hi' c c'.
Proof.
  unfold evolves. intros ? ? (?&?&?&H). repeat split; try done.
  destruct (_instance c); [done|]. intros a Ha. destruct (H a Ha). split; [done|lia].
Qed.

Lemma advance_refl st : advance st st.
Proof. split; [done|]. apply Forall_Forall2_diag, Forall_forall. intros. apply evolves_refl. Qed.

Lemma advance_trans st1 st2 st3 :
  advance st1 st2 → advance st2 st3 → advance st1 st3.
Proof.
  intros [Hp1 H1] [Hp2 H2]. split; [by etrans|].
  pose proof (prefix_length _ _ Hp1). pose proof (prefix_length _ _ Hp2).
  revert H2. generalize (ENTERPRYTHON_COMPONENTS st3).
  induction H1 as [|c1 c2 l1 l2 Hc _ IH]; intros l3 H3; inversion H3; subst; constructor.
  - eapply evolves_trans; [| | | |exact Hc|eassumption]; lia.
  - by apply IH.
Qed.

Lemma advance_extends st st' : advance st st' → extends st st'.
Proof.
  intros [Hp H]. split; [done|]. intros r c Hr.
  destruct (Forall2_lookup_l _ _ _ _ _ H Hr) as (c' & ? & ?). eauto.
Qed.

Lemma advance_length st st' :
  advance st st' →
  length (ENTERPRYTHON_COMPONENTS st') = length (ENTERPRYTHON_COMPONENTS st).
Proof. intros [_ H]. symmetry. by eapply Forall2_length. Qed.

Lemma extends_refl st : extends st st.
Proof. split; [done|]. intros r c ?. exists c. split; [done|apply evolves_refl]. Qed.

Lemma extends_trans st1 st2 st3 :
  extends st1 st2 → extends st2 st3 → extends st1 st3.
Proof.
  intros [Hp1 H1] [Hp2 H2]. split; [by etrans|].
  pose proof (prefix_length _ _ Hp1). pose proof (prefix_length _ _ Hp2).
  intros r c Hr. destruct (H1 r c Hr) as (c2 & Hr2 & Hc2).
  destruct (H2 r c2 Hr2) as (c3 & Hr3 & Hc3).
  exists c3. split; [done|]. eapply evolves_trans; [| | | |exact Hc2|exact Hc3]; lia.
Qed.

(** ** Lookup *)

Lemma elem_of_get_components the_type st r c :
  (r, c) ∈ _get_components the_type st ↔
  ENTERPRYTHON_COMPONENTS st !! r = Some c ∧ matches c the_type = true.
Proof.
  unfold _get_components. rewrite list_elem_of_filter, elem_of_lookup_imap. simpl.
  rewrite Is_true_true. split.
  - intros [Hm (i & x & Heq & Hi)]. by simplify_eq.
  - intros [Hi Hm]. eauto.
Qed.

Lemma matches_evolves lo hi c c' the_type :
  evolves lo hi c c' → matches c' the_type = matches c the_type.
Proof. intros (_ & _ & Hb & _). unfold matches. by rewrite Hb. Qed.

Lemma get_component_state the_type st o st' :
  _get_component the_type st = (o, st') → st' = st.
Proof.
  unfold _get_component, bind, gets, raise, ret.
  case_bool_decide; [congruence|]. destruct (_get_components the_type st); congruence.
Qed.

Lemma get_component_many the_type st :
  1 < length (_get_components the_type st) →
  _get_component the_type st = (Raise (TypeError (AmbiguousDependency the_type)), st).
Proof. intros H. unfold _get_component, bind, gets, raise. by rewrite bool_decide_eq_true_2. Qed.

Lemma get_component_none the_type st :
  _get_components the_type st = [] → _get_component the_type st = (Ok None, st).
Proof. intros H. unfold _get_component, bind, gets. rewrite H. done. Qed.

Lemma get_component_one the_type st rc :
  _get_components the_type st = [rc] → _get_component the_type st = (Ok (Some rc), st).
Proof. intros H. unfold _get_component, bind, gets. rewrite H. done. Qed.

Lemma get_component_Some_inv the_type st rc st' :
  _get_component the_type st = (Ok (Some rc), st') →
  _get_components the_type st = [rc] ∧ st' = st.
Proof.
  unfold _get_component, bind, gets, raise, ret.
  case_bool_decide as Hlen; [congruence|].
  destruct (_get_components the_type st) as [|x [|y l]]; simpl in *; [congruence| |lia].
  intros; by simplify_eq.
Qed.

Lemma get_component_None_inv the_type st st' :
  _get_component the_type st = (Ok None, st') →
  _get_components the_type st = [] ∧ st' = st.
Proof.
  unfold _get_component, bind, gets, raise, ret.
  case_bool_decide as Hlen; [congruence|].
  destruct (_get_components the_type st) as [|x l]; [|congruence].
  intros; by simplify_eq.
Qed.

Lemma get_component_Ok_inv the_type st found st' :
  _get_component the_type st = (Ok found, st') →
  _get_components the_type st = option_list found ∧ st' = st.
Proof.
  destruct found; [apply get_component_Some_inv|apply get_component_None_inv].
Qed.

Lemma filter_indexed_snd {A} (P : A → Prop) `{!∀ x, Decision (P x)}
    (l : list A) (k : nat) :
  (filter (λ rc, P rc.2) (imap (λ i x, (k + i, x)) l)).*2 = filter P l.
Proof.
  revert k. induction l as [|x l IH]; intros k; [done|].
  rewrite imap_cons.
  rewrite (imap_ext _ (λ i y, (S k + i, y))) by (intros; simpl; f_equal; lia).
  rewrite filter_cons. simpl. rewrite (filter_cons P).
  destruct (decide (P x)); simpl; [f_equal|]; exact (IH (S k)).
Qed.

(** The types of the components found are the types of the matching
    components, in the order of the registry. *)
Lemma get_components_types the_type st :
  map (λ comp, get_type comp.2) (_get_components the_type st)
  = _type <$> filter (λ c, Is_true (matches c the_type)) (ENTERPRYTHON_COMPONENTS st).
Proof.
  unfold _get_components.
  rewrite <-(filter_indexed_snd (λ c, Is_true (matches c the_type))
                                (ENTERPRYTHON_COMPONENTS st) 0).
  change (map (λ comp : nat * _Component, get_type comp.2)) with
    (fmap (M:=list) (λ comp : nat * _Component, _type comp.2)).
  rewrite <-list_fmap_compose. done.
Qed.

Lemma matching_types_evolves lo hi the_type (l l' : list _Component) :
  Forall2 (evolves lo hi) l l' →
  _type <$> filter (λ c, Is_true (matches c the_type)) l'
  = _type <$> filter (λ c, Is_true (matches c the_type)) l.
Proof.
  induction 1 as [|c c' l l' Hc _ IH]; [done|].
  rewrite !filter_cons. pose proof (matches_evolves _ _ _ _ the_type Hc) as Hm.
  destruct Hc as (Ht & _).
  destruct (decide (Is_true (matches c' the_type))) as [H1|H1],
           (decide (Is_true (matches c the_type))) as [H2|H2];
    rewrite ?fmap_cons, ?IH, ?Ht; try done; rewrite Hm in H1; done.
Qed.

Lemma get_components_advance the_type st st' rc :
  advance st st' → rc ∈ _get_components the_type st →
  ∃ c', (rc.1, c') ∈ _get_components the_type st' ∧ _type c' = _type rc.2.
Proof.
  intros Hadv Hin. destruct rc as [r c]. apply elem_of_get_components in Hin as [Hr Hm].
  destruct (advance_extends _ _ Hadv) as [_ Hext].
  destruct (Hext r c Hr) as (c' & Hr' & Hc'). exists c'. split.
  - apply elem_of_get_components. split; [done|]. by rewrite (matches_evolves _ _ _ _ _ Hc').
  - by destruct Hc'.
Qed.

(** ** Construction and caching *)

Section InjectorFacts.

Variable classes : cname → class_info.

Ltac bind_cases H :=
  let a := fresh "a" in
  let s := fresh "s" in
  let H1 := fresh "Hrun" in
  let e := fresh "e" in
  apply bind_inv in H as [(a & s & H1 & H)|[(e & H1 & ->)|[H1 ->]]].

Lemma call_Ok_inv the_type arguments st a st' :
  call classes the_type arguments st = (Ok a, st') →
  a = length (heap st) ∧
  st' = {| ENTERPRYTHON_COMPONENTS := ENTERPRYTHON_COMPONENTS st;
           heap := heap st ++
             [ {| obj_class := the_type;
                  obj_fields := bound_fields (cls_signature (classes the_type))
                                             arguments |} ] |} ∧
  cls_abstract (classes the_type) = false ∧
  unexpected_keywords (cls_signature (classes the_type)) arguments = [] ∧
  missing_arguments (cls_signature (classes the_type)) arguments = [].
Proof.
  unfold call, raise. destruct (cls_abstract (classes the_type)); [done|].
  case_bool_decide as Hu; [done|]. case_bool_decide as Hm; [done|].
  intros [= <- <-]. repeat split.
  - by destruct (unexpected_keywords _ _).
  - by destruct (missing_arguments _ _).
Qed.

Lemma call_not_Ok the_type arguments st o st' :
  call classes the_type arguments st = (o, st') →
  (∃ a, o = Ok a) ∨ ((∃ e, o = Raise (TypeError e)) ∧ st' = st).
Proof.
  unfold call, raise. destruct (cls_abstract (classes the_type)).
  { intros [= <- <-]. right. eauto. }
  case_bool_decide; [intros [= <- <-]; right; eauto|].
  case_bool_decide; [intros [= <- <-]; right; eauto|].
  intros [= <- <-]. left. eauto.
Qed.

Lemma call_advance the_type arguments st o st' :
  call classes the_type arguments st = (o, st') → advance st st'.
Proof.
  intros H. destruct (call_not_Ok _ _ _ _ _ H) as [[a ->]|[_ ->]]; [|apply advance_refl].
  apply call_Ok_inv in H as (_ & -> & _). split; simpl.
  - by apply prefix_app_r.
  - apply Forall_Forall2_diag, Forall_forall. intros. apply evolves_refl.
Qed.

Lemma set_instance_state r instance st o st' :
  set_instance_if_singleton r instance st = (o, st') →
  heap st' = heap st ∧
  (o = Ok () ∨ (o = Raise AssertionError ∧ st' = st)).
Proof.
  unfold set_instance_if_singleton.
  destruct (ENTERPRYTHON_COMPONENTS st !! r) as [c|]; [|intros [= <- <-]; eauto].
  destruct (_is_singleton c); [|intros [= <- <-]; eauto].
  destruct (_instance c); intros [= <- <-]; eauto.
Qed.

(** Caching a freshly allocated object is an advance of the state in which
    the allocation started. *)
Lemma set_instance_advance st0 r instance st o st' :
  advance st0 st → length (heap st0) ≤ instance < length (heap st) →
  set_instance_if_singleton r instance st = (o, st') → advance st0 st'.
Proof.
  intros Hadv Hfresh. unfold set_instance_if_singleton.
  destruct (ENTERPRYTHON_COMPONENTS st !! r) as [c|] eqn:Hr; [|by intros [= <- <-]].
  destruct (_is_singleton c) eqn:Hs; [|by intros [= <- <-]].
  destruct (_instance c) eqn:Hi; intros [= <- <-]; [done|].
  destruct Hadv as [Hp Hall]. split; [done|]. simpl.
  rewrite <-(list_insert_id (ENTERPRYTHON_COMPONENTS st0) r
               (default c (ENTERPRYTHON_COMPONENTS st0 !! r))).
  2:{ destruct (Forall2_lookup_r _ _ _ _ _ Hall Hr) as (c0 & -> & _). done. }
  apply Forall2_insert; [done|].
  destruct (Forall2_lookup_r _ _ _ _ _ Hall Hr) as (c0 & Hr0 & Hc0). rewrite Hr0. simpl.
  destruct Hc0 as (Ht & Hsing & Hb & Hinst). unfold evolves; simpl.
  repeat split; try congruence. rewrite Hi in Hinst.
  destruct (_instance c0); [done|]. intros a [= <-]. split; [congruence|lia].
Qed.

(** When the cache of a singleton was filled, the component holds the
    instance afterwards. *)
Lemma set_instance_cached r c instance st st' :
  ENTERPRYTHON_COMPONENTS st !! r = Some c → _is_singleton c = true →
  set_instance_if_singleton r instance st = (Ok (), st') →
  ∃ c', ENTERPRYTHON_COMPONENTS st' !! r = Some c' ∧ _instance c' = Some instance.
Proof.
  intros Hr Hs. unfold set_instance_if_singleton. rewrite Hr, Hs.
  destruct (_instance c); [done|]. intros [= <-]. simpl.
  eexists. split; [apply list_lookup_insert_eq; by eapply lookup_lt_Some|done].
Qed.

(** ** The loops of [assemble] preserve what the recursive calls preserve *)

Lemma mapM_advance rec ts st o st' :
  advancing rec → mapM (λ t, rec t ∅) ts st = (o, st') → advance st st'.
Proof.
  intros Hrec. revert st o. induction ts as [|t ts IH]; intros st o H; simpl in H.
  { injection H as <- <-. apply advance_refl. }
  bind_cases H; try (by eapply Hrec).
  apply Hrec in Hrun. bind_cases H.
  - injection H as <- <-. eapply advance_trans; [done|]. by eapply IH.
  - eapply advance_trans; [done|]. by eapply IH.
  - eapply advance_trans; [done|]. by eapply IH.
Qed.

Lemma bind_parameter_advance rec parameter arguments st o st' :
  advancing rec →
  bind_parameter rec parameter arguments st = (o, st') → advance st st'.
Proof.
  intros Hrec. destruct parameter as [name ann]. unfold bind_parameter.
  destruct (_is_list_type ann).
  - intros H. bind_cases H.
    + destruct ann; try done; injection Hrun as <- <-.
      bind_cases H; try done. injection Hrun as <- <-.
      bind_cases H; try (by eapply mapM_advance).
      injection H as <- <-. by eapply mapM_advance.
    + destruct ann; try done; injection Hrun as <- <-; apply advance_refl.
    + destruct ann; done.
  - intros H. bind_cases H.
    + apply get_component_state in Hrun as ->. destruct a as [comp|].
      * bind_cases H; try (by eapply Hrec). injection H as <- <-. by eapply Hrec.
      * injection H as <- <-. apply advance_refl.
    + apply get_component_state in Hrun as ->. apply advance_refl.
    + apply get_component_state in Hrun as ->. apply advance_refl.
Qed.

Lemma bind_parameters_advance rec parameters arguments st o st' :
  advancing rec →
  bind_parameters rec parameters arguments st = (o, st') → advance st st'.
Proof.
  intros Hrec. revert arguments st.
  induction parameters as [|p ps IH]; intros arguments st H; simpl in H.
  { injection H as <- <-. apply advance_refl. }
  bind_cases H; try (by eapply bind_parameter_advance).
  eapply advance_trans; [by eapply bind_parameter_advance|by eapply IH].
Qed.

Lemma collect_parameters_state params st o st' :
  collect_parameters params st = (o, st') → st' = st.
Proof.
  revert o. induction params as [|p ps IH]; intros o H; simpl in H.
  { by injection H as <- <-. }
  case_bool_decide; [by eapply IH|].
  destruct (p_kind p); try (by injection H as <- <-).
  bind_cases H; try (by eapply IH).
  injection H as <- <-. by eapply IH.
Qed.

(** ** What the argument loop binds *)

Lemma collect_parameters_Ok params st parameters st' :
  collect_parameters params st = (Ok parameters, st') →
  parameters = (λ param, (p_name param, p_annotation param))
                 <$> filter (λ param, p_name param ≠ "self") params.
Proof.
  revert parameters. induction params as [|p ps IH]; intros parameters H; simpl in H.
  { by injection H as <- <-. }
  rewrite filter_cons. case_bool_decide as Hself.
  - rewrite decide_False by (intros ?; done). by apply IH.
  - rewrite decide_True by done.
    destruct (p_kind p); try done.
    apply bind_Ok_inv in H as (rest & s1 & Hrest & H). injection H as <- <-.
    rewrite fmap_cons. f_equal. by apply IH.
Qed.

Lemma mapM_assemble_each rec ts st instances st' :
  mapM (λ t, rec t ∅) ts st = (Ok instances, st') ↔
  assemble_each rec ts st instances st'.
Proof.
  split.
  - revert st instances. induction ts as [|t ts IH]; intros st instances H; simpl in H.
    { injection H as <- <-. constructor. }
    apply bind_Ok_inv in H as (a & s1 & Ha & H).
    apply bind_Ok_inv in H as (rest & s2 & Hrest & H). injection H as <- <-.
    econstructor; [done|]. by apply IH.
  - induction 1 as [|t ts st a st1 instances st2 Ha _ IH]; [done|].
    simpl. rewrite (bind_Ok _ _ _ _ _ Ha), (bind_Ok _ _ _ _ _ IH). done.
Qed.

Lemma assemble_each_length rec ts st instances st' :
  assemble_each rec ts st instances st' → length instances = length ts.
Proof. induction 1; simpl; congruence. Qed.

(** A parameter annotated [List[elem]]: whatever was bound to the name
    before is replaced with the list of the assembled instances. *)
Lemma bind_parameter_list rec name elem arguments st arguments' st' :
  bind_parameter rec (name, AnnList elem) arguments st = (Ok arguments', st') →
  ∃ instances,
    assemble_each rec
      (_type <$> filter (λ c, Is_true (matches c elem)) (ENTERPRYTHON_COMPONENTS st))
      st instances st' ∧
    arguments' = <[name := VList (VRef <$> instances)]> arguments.
Proof.
  unfold bind_parameter. simpl. intros H.
  apply bind_Ok_inv in H as (elem' & s0 & [= <- <-] & H).
  apply bind_Ok_inv in H as (comps & s0 & [= <- <-] & H).
  apply bind_Ok_inv in H as (instances & s1 & Hmap & H). injection H as <- <-.
  exists instances. split; [|done].
  rewrite get_components_types in Hmap. by apply mapM_assemble_each.
Qed.

(** Any other annotation with one component found: the assembled component
    replaces whatever was bound to the name. *)
Lemma bind_parameter_component rec name ann comp arguments st arguments' st' :
  _is_list_type ann = false → _get_components ann st = [comp] →
  bind_parameter rec (name, ann) arguments st = (Ok arguments', st') →
  ∃ instance,
    rec (_type comp.2) ∅ st = (Ok instance, st') ∧
    arguments' = <[name := VRef instance]> arguments.
Proof.
  unfold bind_parameter. intros -> Hcomps H.
  rewrite (bind_Ok _ _ _ _ _ (get_component_one _ _ _ Hcomps)) in H.
  apply bind_Ok_inv in H as (instance & s1 & Hrec & H). injection H as <- <-.
  eauto.
Qed.

(** No component found: the arguments stay as they are. *)
Lemma bind_parameter_absent rec name ann arguments st :
  _is_list_type ann = false → _get_components ann st = [] →
  bind_parameter rec (name, ann) arguments st = (Ok arguments, st).
Proof.
  unfold bind_parameter. intros -> Hcomps.
  by rewrite (bind_Ok _ _ _ _ _ (get_component_none _ _ Hcomps)).
Qed.

Lemma bind_parameter_other_names rec name ann arguments st arguments' st' other :
  bind_parameter rec (name, ann) arguments st = (Ok arguments', st') →
  other ≠ name → arguments' !! other = arguments !! other.
Proof.
  unfold bind_parameter. intros H Hne. destruct (_is_list_type ann).
  - apply bind_Ok_inv in H as (elem' & s0 & _ & H).
    apply bind_Ok_inv in H as (comps & s1 & _ & H).
    apply bind_Ok_inv in H as (instances & s2 & _ & H). injection H as <- <-.
    by rewrite lookup_insert_ne.
  - apply bind_Ok_inv in H as (found & s0 & _ & H). destruct found as [comp|].
    + apply bind_Ok_inv in H as (instance & s1 & _ & H). injection H as <- <-.
      by rewrite lookup_insert_ne.
    + by injection H as <- <-.
Qed.

Lemma bind_parameters_other_names rec parameters arguments st arguments' st' other :
  bind_parameters rec parameters arguments st = (Ok arguments', st') →
  other ∉ parameters.*1 → arguments' !! other = arguments !! other.
Proof.
  revert arguments st. induction parameters as [|[name ann] ps IH];
    intros arguments st H Hnot; simpl in H.
  { by injection H as <- <-. }
  apply bind_Ok_inv in H as (args1 & s1 & Hone & H).
  rewrite fmap_cons, not_elem_of_cons in Hnot. destruct Hnot as [Hne Hnot].
  rewrite (IH _ _ H Hnot). by eapply bind_parameter_other_names.
Qed.

(** The value a parameter ends up with is the one its own turn of the loop
    left: later turns bind other names. *)
Lemma bind_parameters_turn rec parameters arguments st arguments' st' name ann :
  advancing rec → NoDup parameters.*1 → (name, ann) ∈ parameters →
  bind_parameters rec parameters arguments st = (Ok arguments', st') →
  ∃ args1 s1 args2 s2,
    advance st s1 ∧
    args1 !! name = arguments !! name ∧
    bind_parameter rec (name, ann) args1 s1 = (Ok args2, s2) ∧
    arguments' !! name = args2 !! name.
Proof.
  intros Hrec. revert arguments st.
  induction parameters as [|[name0 ann0] ps IH]; intros arguments st Hnd Hin H.
  { by apply elem_of_nil in Hin. }
  change (bind (bind_parameter rec (name0, ann0) arguments)
               (λ a', bind_parameters rec ps a') st = (Ok arguments', st')) in H.
  apply bind_Ok_inv in H as (args1 & s1 & Hone & H).
  rewrite fmap_cons in Hnd. apply NoDup_cons in Hnd as [Hfresh Hnd].
  apply elem_of_cons in Hin as [[= -> ->]|Hin].
  - exists arguments, st, args1, s1.
    split; [apply advance_refl|]. split; [done|]. split; [done|].
    by eapply bind_parameters_other_names.
  - destruct (IH _ _ Hnd Hin H) as (a1 & t1 & a2 & t2 & Hadv & Hsame & Hturn & Hlast).
    exists a1, t1, a2, t2.
    split; [eapply advance_trans; [by eapply bind_parameter_advance|done]|].
    split; [|done]. rewrite Hsame. eapply bind_parameter_other_names; [done|].
    intros ->. apply Hfresh. apply list_elem_of_fmap. by exists (name0, ann).
Qed.

(** ** Attributes of the constructed object *)

Lemma bound_fields_lookup signature arguments param :
  NoDup (p_name <$> signature) → param ∈ signature →
  bound_fields signature arguments !! p_name param = bound_value arguments param.
Proof.
  intros Hnd Hin. unfold bound_fields.
  set (entry := λ q : Param, (λ v, (p_name q, v)) <$> bound_value arguments q).
  assert (Hkeys : NoDup (omap entry signature).*1).
  { clear Hin. induction signature as [|q qs IH]; [constructor|].
    rewrite fmap_cons in Hnd. apply NoDup_cons in Hnd as [Hq Hnd]. simpl.
    destruct (entry q) as [[k v]|] eqn:He; [|by apply IH].
    rewrite fmap_cons. apply NoDup_cons. split; [|by apply IH]. simpl.
    unfold entry in He. destruct (bound_value arguments q); [|done].
    injection He as <- <-. intros Hk. apply Hq.
    apply list_elem_of_fmap in Hk as ([k' v'] & -> & Hk).
    apply list_elem_of_omap in Hk as (q' & Hq' & He').
    unfold entry in He'. destruct (bound_value arguments q'); [|done].
    injection He' as <- <-. apply list_elem_of_fmap. by exists q'. }
  destruct (bound_value arguments param) as [v|] eqn:Hv.
  - apply elem_of_list_to_map; [done|]. apply list_elem_of_omap.
    exists param. split; [done|]. unfold entry. by rewrite Hv.
  - apply not_elem_of_list_to_map. intros Hk.
    apply list_elem_of_fmap in Hk as ([k' v'] & Heq & Hk). simpl in Heq. subst k'.
    apply list_elem_of_omap in Hk as (q' & Hq' & He').
    unfold entry in He'. destruct (bound_value arguments q') as [w|] eqn:Hw; [|done].
    injection He' as Hname <-.
    assert (q' = param) as ->; [|congruence].
    clear -Hnd Hin Hq' Hname. induction signature as [|q qs IH]; [by apply elem_of_nil in Hin|].
    rewrite fmap_cons in Hnd. apply NoDup_cons in Hnd as [Hq Hnd].
    apply elem_of_cons in Hin as [->|Hin], Hq' as [->|Hq']; try done.
    + exfalso. apply Hq. apply list_elem_of_fmap. by exists q'.
    + exfalso. apply Hq. apply list_elem_of_fmap. by exists param.
    + by apply IH.
Qed.

(** ** [assemble] *)

Lemma construct_Ok_inv rec the_type kwargs stored st a st' :
  construct classes rec the_type kwargs stored st = (Ok a, st') →
  ∃ parameters arguments s1 s2,
    collect_parameters (cls_signature (classes the_type)) st = (Ok parameters, st) ∧
    bind_parameters rec parameters kwargs st = (Ok arguments, s1) ∧
    call classes the_type arguments s1 = (Ok a, s2) ∧
    match stored with
    | Some comp => set_instance_if_singleton comp.1 a s2 = (Ok (), st')
    | None => st' = s2
    end.
Proof.
  unfold construct. intros H.
  apply bind_Ok_inv in H as (parameters & s0 & Hc & H).
  pose proof (collect_parameters_state _ _ _ _ Hc) as ->.
  apply bind_Ok_inv in H as (arguments & s1 & Hb & H).
  apply bind_Ok_inv in H as (result & s2 & Hcall & H).
  apply bind_Ok_inv in H as ([] & s3 & Hset & H).
  injection H as <- <-. exists parameters, arguments, s1, s2.
  repeat split; try done. destruct stored; [done|]. by injection Hset as <-.
Qed.

(** What a successful [construct] leaves in the heap. *)
Lemma construct_result rec the_type kwargs stored st a st' :
  construct classes rec the_type kwargs stored st = (Ok a, st') →
  ∃ arguments s1,
    bind_parameters rec
      ((λ param, (p_name param, p_annotation param))
         <$> filter (λ param, p_name param ≠ "self") (cls_signature (classes the_type)))
      kwargs st = (Ok arguments, s1) ∧
    a = length (heap s1) ∧
    length (heap st') = S (length (heap s1)) ∧
    missing_arguments (cls_signature (classes the_type)) arguments = [] ∧
    heap st' !! a
    = Some {| obj_class := the_type;
              obj_fields := bound_fields (cls_signature (classes the_type)) arguments |}.
Proof.
  intros H. apply construct_Ok_inv in H as (ps & args & s1 & s2 & Hc & Hb & Hcall & Hset).
  apply collect_parameters_Ok in Hc as ->.
  apply call_Ok_inv in Hcall as (-> & Hs2 & _ & _ & Hmiss).
  exists args, s1. split; [done|]. split; [done|].
  assert (Hheap : heap st' = heap s2).
  { destruct stored as [comp|]; [|by subst].
    by apply set_instance_state in Hset as [? _]. }
  rewrite Hheap, Hs2. simpl. rewrite length_app. simpl.
  split; [lia|]. split; [done|].
  rewrite lookup_app_r by done. by rewrite Nat.sub_diag.
Qed.

Lemma construct_advance rec the_type kwargs stored st o st' :
  advancing rec →
  construct classes rec the_type kwargs stored st = (o, st') → advance st st'.
Proof.
  intros Hrec. unfold construct. intros H.
  apply bind_inv in H as [(ps & s0 & Hc & H)|[(e & Hc & ->)|[Hc ->]]];
    apply collect_parameters_state in Hc as ->; try apply advance_refl.
  apply bind_inv in H as [(args & s1 & Hb & H)|[(e & Hb & ->)|[Hb ->]]];
    pose proof (bind_parameters_advance _ _ _ _ _ _ Hrec Hb) as Hadv1; try done.
  apply bind_inv in H as [(res & s2 & Hcall & H)|[(e & Hcall & ->)|[Hcall ->]]];
    pose proof (call_advance _ _ _ _ _ Hcall) as Hadv2;
    try (by eapply advance_trans).
  apply call_Ok_inv in Hcall as (-> & Hs2 & _).
  assert (Hstore : ∀ o1 s3,
    match stored with
    | Some comp => set_instance_if_singleton comp.1 (length (heap s1))
    | None => ret ()
    end s2 = (o1, s3) → advance st s3).
  { intros o1 s3 Hset. destruct stored as [comp|].
    - eapply set_instance_advance; [by eapply advance_trans| |exact Hset].
      destruct Hadv1 as [Hp _]. apply prefix_length in Hp.
      rewrite Hs2; simpl. rewrite length_app; simpl. lia.
    - injection Hset as <- <-. by eapply advance_trans. }
  apply bind_inv in H as [(u & s3 & Hset & H)|[(e & Hset & ->)|[Hset ->]]];
    try (by eapply Hstore).
  injection H as <- <-. by eapply Hstore.
Qed.

Lemma assemble_advance fuel : advancing (assemble classes fuel).
Proof.
  induction fuel as [|fuel IH]; intros t kw st o st' H; simpl in H.
  { injection H as <- <-. apply advance_refl. }
  bind_cases H; try (apply get_component_state in Hrun as ->; apply advance_refl).
  apply get_component_state in Hrun as ->.
  assert (Hget : ∀ o1 s1,
    match a with Some comp => get_instance comp.2 | None => ret None end st
      = (o1, s1) → s1 = st).
  { intros o1 s1. destruct a as [comp|]; [|by intros [= <- <-]].
    unfold get_instance. destruct (_ || _); by intros [= <- <-]. }
  bind_cases H; try (apply Hget in Hrun as ->; apply advance_refl).
  apply Hget in Hrun as ->. destruct a0 as [inst|].
  - injection H as <- <-. apply advance_refl.
  - by eapply construct_advance.
Qed.

(** A successful [assemble] either returned the instance cached in the one
    component found, leaving the state alone, or constructed. *)
Lemma assemble_Ok_inv fuel the_type kwargs st a st' :
  assemble classes (S fuel) the_type kwargs st = (Ok a, st') →
  ∃ stored,
    _get_components (AnnClass the_type) st = option_list stored ∧
    ((∃ comp, stored = Some comp ∧ _instance comp.2 = Some a ∧
              _is_singleton comp.2 = true ∧ st' = st) ∨
     (nothing_cached the_type st ∧
      construct classes (assemble classes fuel) the_type kwargs stored st
        = (Ok a, st'))).
Proof.
  simpl. intros H. apply bind_Ok_inv in H as (stored & s0 & Hget & H).
  apply get_component_Ok_inv in Hget as [Hcomps ->].
  exists stored. split; [done|].
  apply bind_Ok_inv in H as (instance & s0 & Hinst & H).
  destruct stored as [comp|].
  - unfold get_instance in Hinst.
    destruct (_is_singleton comp.2) eqn:Hs; simpl in Hinst.
    + injection Hinst as <- <-. destruct (_instance comp.2) as [inst|] eqn:Hi.
      * injection H as <- <-. left. eauto.
      * right. split; [|done]. unfold nothing_cached. rewrite Hcomps.
        by repeat constructor.
    + case_bool_decide as Hi; [|done]. injection Hinst as <- <-.
      rewrite Hi in H. right. split; [|done]. unfold nothing_cached. rewrite Hcomps.
      by repeat constructor.
  - injection Hinst as <- <-. right. split; [|done].
    unfold nothing_cached. rewrite Hcomps. constructor.
Qed.

(** With nothing cached, [assemble] is the lookup followed by
    [construct]. *)
Lemma assemble_constructs fuel the_type kwargs st stored :
  _get_components (AnnClass the_type) st = option_list stored →
  nothing_cached the_type st →
  assemble classes (S fuel) the_type kwargs st
  = construct classes (assemble classes fuel) the_type kwargs stored st.
Proof.
  intros Hcomps Hnone. simpl. unfold nothing_cached in Hnone. rewrite Hcomps in Hnone.
  destruct stored as [comp|]; simpl in Hcomps.
  - rewrite (bind_Ok _ _ _ _ _ (get_component_one _ _ _ Hcomps)).
    apply Forall_cons_1 in Hnone as [Hi _].
    unfold get_instance. rewrite Hi, bool_decide_eq_true_2, orb_true_r by done.
    done.
  - by rewrite (bind_Ok _ _ _ _ _ (get_component_none _ _ Hcomps)).
Qed.

Lemma assemble_registered_Ok fuel the_type kwargs st a st' r c :
  ENTERPRYTHON_COMPONENTS st !! r = Some c →
  matches c (AnnClass the_type) = true →
  assemble classes fuel the_type kwargs st = (Ok a, st') →
  (_is_singleton c = true ∧ _instance c = Some a ∧ st' = st) ∨
  (_instance c = None ∧ length (heap st) ≤ a < length (heap st') ∧
   (_is_singleton c = true →
    ∃ c', ENTERPRYTHON_COMPONENTS st' !! r = Some c' ∧ _instance c' = Some a)).
Proof.
  intros Hr Hm H. destruct fuel as [|fuel]; [done|].
  apply assemble_Ok_inv in H as (stored & Hcomps & H).
  assert (Hin : (r, c) ∈ _get_components (AnnClass the_type) st)
    by by apply elem_of_get_components.
  rewrite Hcomps in Hin. destruct stored as [comp|]; [|by apply elem_of_nil in Hin].
  apply list_elem_of_singleton in Hin as <-. simpl in *.
  destruct H as [(comp & [= <-] & Hi & Hs & ->)|[Hnone H]]; [left; done|].
  right. unfold nothing_cached in Hnone. rewrite Hcomps in Hnone.
  apply Forall_cons_1 in Hnone as [Hi _]. simpl in Hi. split; [done|].
  pose proof (construct_result _ _ _ _ _ _ _ H) as (args & s1 & Hb & -> & Hlen & _).
  pose proof (bind_parameters_advance _ _ _ _ _ _ (assemble_advance fuel) Hb) as Hadv.
  split; [destruct Hadv as [Hp _]; apply prefix_length in Hp; lia|].
  intros Hs. apply construct_Ok_inv in H as (ps & args' & s1' & s2 & Hc & Hb' & Hcall & Hset).
  simpl in Hset.
  pose proof (bind_parameters_advance _ _ _ _ _ _ (assemble_advance fuel) Hb') as Hadv1.
  pose proof (call_advance _ _ _ _ _ Hcall) as Hadv2.
  destruct (advance_extends _ _ (advance_trans _ _ _ Hadv1 Hadv2)) as [_ Hext].
  destruct (Hext r c Hr) as (c2 & Hr2 & _ & Hs2 & _).
  apply call_Ok_inv in Hcall as (-> & _).
  eapply set_instance_cached; [exact Hr2|congruence|].
  assert (length (heap s1') = length (heap s1)) as ->; [|done].
  apply collect_parameters_Ok in Hc as ->. congruence.
Qed.

(** ** Registration and sequences of operations *)

Lemma add_component_Ok_inv the_type singleton st st' :
  _add_component classes the_type singleton st = (Ok (), st') →
  _get_components (AnnClass the_type) st = [] ∧
  st' = {| ENTERPRYTHON_COMPONENTS :=
             ENTERPRYTHON_COMPONENTS st
               ++ [new_component (getmro classes the_type) the_type singleton];
           heap := heap st |}.
Proof.
  unfold _add_component. intros H.
  apply bind_Ok_inv in H as (found & s0 & Hget & H).
  destruct found; [done|]. apply get_component_None_inv in Hget as [Hcomps ->].
  by injection H as <-.
Qed.

Lemma add_component_failure the_type singleton st o st' :
  _add_component classes the_type singleton st = (o, st') →
  o = Ok () ∨ (st' = st ∧ ∃ e, o = Raise (TypeError e)).
Proof.
  unfold _add_component, _get_component, bind, gets, raise, ret.
  case_bool_decide; [intros [= <- <-]; eauto|].
  destruct (_get_components _ st); intros [= <- <-]; eauto.
Qed.

Lemma add_component_extends the_type singleton st o st' :
  _add_component classes the_type singleton st = (o, st') → extends st st'.
Proof.
  intros H. destruct (add_component_failure _ _ _ _ _ H) as [->|[-> _]];
    [|apply extends_refl].
  apply add_component_Ok_inv in H as [_ ->]. split; [done|]. simpl.
  intros r c Hr. exists c. split; [by apply lookup_app_l_Some|apply evolves_refl].
Qed.

Lemma component_extends singleton the_type st o st' :
  component classes singleton the_type st = (o, st') → extends st st'.
Proof.
  unfold component. destruct the_type as [c|f]; [|intros [= <- <-]; apply extends_refl].
  destruct (cls_abstract (classes c)); [intros [= <- <-]; apply extends_refl|].
  intros H. apply bind_inv in H as [(u & s1 & Hadd & H)|[(e & Hadd & ->)|[Hadd ->]]];
    try (by eapply add_component_extends).
  injection H as <- <-. by eapply add_component_extends.
Qed.

Lemma component_Ok_inv singleton the_type st t st' :
  component classes singleton the_type st = (Ok t, st') →
  ∃ c, the_type = TClass c ∧ t = TClass c ∧ cls_abstract (classes c) = false ∧
       _add_component classes c singleton st = (Ok (), st').
Proof.
  unfold component. destruct the_type as [c|f]; [|done].
  destruct (cls_abstract (classes c)) eqn:Habs; [done|].
  intros H. apply bind_Ok_inv in H as ([] & s1 & Hadd & H). injection H as <- <-.
  eauto.
Qed.

End InjectorFacts.

Lemma step_extends classes st st' : step classes st st' → extends st st'.
Proof.
  destruct 1 as [fuel t kw st o st' H|singleton t st o st' H].
  - apply advance_extends. by eapply assemble_advance.
  - by eapply component_extends.
Qed.

Lemma steps_extend classes st st' : rtc (step classes) st st' → extends st st'.
Proof.
  induction 1 as [|st1 st2 st3 H _ IH]; [apply extends_refl|].
  eapply extends_trans; [by eapply step_extends|done].
Qed.

(** ** More fuel changes no outcome *)

Section Fuel.

Variable classes : cname → class_info.

Lemma settles_refl {A} (m : M A) : settles m m.
Proof. by intros st o st' H _. Qed.

Lemma settles_bind {A B} (m m' : M A) (k k' : A → M B) :
  settles m m' → (∀ a, settles (k a) (k' a)) → settles (bind m k) (bind m' k').
Proof.
  intros Hm Hk st o st' H Ho. unfold bind in *.
  destruct (m st) as [[a|e|] s1] eqn:Hrun.
  - rewrite (Hm _ _ _ Hrun) by done. by apply Hk.
  - rewrite (Hm _ _ _ Hrun) by done. done.
  - by injection H as <- <-.
Qed.

Lemma settles_mapM (rec rec' : cname → gmap string value → M addr) (ts : list cname) :
  (∀ t kw, settles (rec t kw) (rec' t kw)) →
  settles (mapM (λ t, rec t ∅) ts) (mapM (λ t, rec' t ∅) ts).
Proof.
  intros Hrec. induction ts as [|t ts IH]; simpl; [apply settles_refl|].
  apply settles_bind; [apply Hrec|]. intros a.
  apply settles_bind; [apply IH|]. intros; apply settles_refl.
Qed.

Lemma settles_bind_parameter (rec rec' : cname → gmap string value → M addr)
    parameter arguments :
  (∀ t kw, settles (rec t kw) (rec' t kw)) →
  settles (bind_parameter rec parameter arguments)
          (bind_parameter rec' parameter arguments).
Proof.
  intros Hrec. destruct parameter as [name ann]. unfold bind_parameter.
  destruct (_is_list_type ann).
  - apply settles_bind; [apply settles_refl|]. intros elem.
    apply settles_bind; [apply settles_refl|]. intros comps.
    apply settles_bind; [by apply settles_mapM|]. intros; apply settles_refl.
  - apply settles_bind; [apply settles_refl|]. intros [comp|]; [|apply settles_refl].
    apply settles_bind; [apply Hrec|]. intros; apply settles_refl.
Qed.

Lemma settles_bind_parameters (rec rec' : cname → gmap string value → M addr)
    parameters arguments :
  (∀ t kw, settles (rec t kw) (rec' t kw)) →
  settles (bind_parameters rec parameters arguments)
          (bind_parameters rec' parameters arguments).
Proof.
  intros Hrec. revert arguments.
  induction parameters as [|p ps IH]; intros arguments; [apply settles_refl|].
  change (settles (bind (bind_parameter rec p arguments) (bind_parameters rec ps))
                  (bind (bind_parameter rec' p arguments) (bind_parameters rec' ps))).
  apply settles_bind; [by apply settles_bind_parameter|apply IH].
Qed.

(** An outcome other than running out of fuel is the outcome with any
    larger amount of fuel. *)
Lemma assemble_settles fuel the_type kwargs :
  settles (assemble classes fuel the_type kwargs)
          (assemble classes (S fuel) the_type kwargs).
Proof.
  revert the_type kwargs. induction fuel as [|fuel IH]; intros the_type kwargs.
  { intros st o st' [= <- <-] Ho. done. }
  change (assemble classes (S (S fuel)) the_type kwargs) with
    (stored_component <- _get_component (AnnClass the_type) ;;
     instance <- match stored_component with
                 | Some comp => get_instance comp.2
                 | None => ret None
                 end ;;
     match instance with
     | Some inst => ret inst
     | None => construct classes (assemble classes (S fuel)) the_type kwargs
                         stored_component
     end).
  change (assemble classes (S fuel) the_type kwargs) with
    (stored_component <- _get_component (AnnClass the_type) ;;
     instance <- match stored_component with
                 | Some comp => get_instance comp.2
                 | None => ret None
                 end ;;
     match instance with
     | Some inst => ret inst
     | None => construct classes (assemble classes fuel) the_type kwargs
                         stored_component
     end).
  apply settles_bind; [apply settles_refl|]. intros stored.
  apply settles_bind; [apply settles_refl|]. intros [inst|]; [apply settles_refl|].
  unfold construct.
  apply settles_bind; [apply settles_refl|]. intros parameters.
  apply settles_bind; [by apply settles_bind_parameters|]. intros; apply settles_refl.
Qed.

Lemma assemble_more_fuel fuel extra the_type kwargs st o st' :
  assemble classes fuel the_type kwargs st = (o, st') → o ≠ OutOfFuel →
  assemble classes (fuel + extra) the_type kwargs st = (o, st').
Proof.
  intros H Ho. induction extra as [|extra IH].
  - by rewrite Nat.add_0_r.
  - rewrite Nat.add_succ_r. by apply assemble_settles.
Qed.

End Fuel.

(** ** The parameters of a constructed object *)

Section Parameters.

Variable classes : cname → class_info.

Lemma collected_names_NoDup (signature : list Param) :
  NoDup (p_name <$> signature) →
  NoDup ((λ param, (p_name param, p_annotation param))
           <$> filter (λ param, p_name param ≠ "self") signature).*1.
Proof.
  intros Hnd. rewrite <-list_fmap_compose.
  eapply sublist_NoDup; [exact Hnd|].
  change (fst ∘ (λ param, (p_name param, p_annotation param))) with p_name.
  apply fmap_sublist, sublist_filter.
Qed.

Lemma get_components_empty_advance the_type st st' :
  advance st st' → _get_components the_type st = [] →
  _get_components the_type st' = [].
Proof.
  intros [_ Hall] Hnone.
  apply (fmap_nil_inv (λ comp : nat * _Component, get_type comp.2)).
  pose proof (get_components_types the_type st') as Hty.
  rewrite (matching_types_evolves _ _ the_type _ _ Hall) in Hty.
  rewrite <-(get_components_types the_type st), Hnone in Hty. exact Hty.
Qed.

(** With nothing cached, a successful [assemble] has constructed. *)
Lemma assemble_constructed fuel the_type kwargs st a st' :
  nothing_cached the_type st →
  assemble classes (S fuel) the_type kwargs st = (Ok a, st') →
  ∃ stored,
    construct classes (assemble classes fuel) the_type kwargs stored st = (Ok a, st').
Proof.
  intros Hnone H. apply assemble_Ok_inv in H as (stored & Hcomps & H).
  exists stored. destruct H as [(comp & -> & Hi & _)|[_ H]]; [|done].
  unfold nothing_cached in Hnone. rewrite Hcomps in Hnone.
  apply Forall_cons_1 in Hnone as [Hn _]. congruence.
Qed.

(** The attribute of the new object that carries a parameter holds what
    the parameter's turn of the argument loop left under its name, and the
    declared default when that is nothing. *)
Lemma parameter_turn fuel the_type kwargs st a st' param :
  nothing_cached the_type st →
  NoDup (p_name <$> cls_signature (classes the_type)) →
  param ∈ cls_signature (classes the_type) →
  p_name param ≠ "self" →
  assemble classes (S fuel) the_type kwargs st = (Ok a, st') →
  ∃ args1 s1 args2 s2 o,
    advance st s1 ∧
    args1 !! p_name param = kwargs !! p_name param ∧
    bind_parameter (assemble classes fuel) (p_name param, p_annotation param) args1 s1
      = (Ok args2, s2) ∧
    heap st' !! a = Some o ∧ obj_class o = the_type ∧
    obj_fields o !! p_name param
    = match args2 !! p_name param with
      | Some v => Some v
      | None => p_default param
      end.
Proof.
  intros Hnone Hnd Hin Hself H.
  apply assemble_constructed in H as (stored & H); [|done].
  apply construct_result in H as (args & s1 & Hb & _ & _ & _ & Hobj).
  assert (Hmem : (p_name param, p_annotation param)
                 ∈ (λ q, (p_name q, p_annotation q))
                     <$> filter (λ q, p_name q ≠ "self")
                                (cls_signature (classes the_type))).
  { apply (list_elem_of_fmap_2 (λ q, (p_name q, p_annotation q))).
    by apply list_elem_of_filter. }
  destruct (bind_parameters_turn _ _ _ _ _ _ _ _
              (assemble_advance classes fuel) (collected_names_NoDup _ Hnd) Hmem Hb)
    as (args1 & t1 & args2 & t2 & Hadv & Hsame & Hturn & Hlast).
  eexists args1, t1, args2, t2, _.
  split; [done|]. split; [done|]. split; [done|]. split; [exact Hobj|].
  split; [done|]. simpl. rewrite (bound_fields_lookup _ _ _ Hnd Hin).
  unfold bound_value. by rewrite Hlast.
Qed.

(** The same, with what lies between the turn and the end of the call. *)
Lemma bind_parameters_turn_between rec parameters arguments st arguments' st' name ann :
  advancing rec → NoDup parameters.*1 → (name, ann) ∈ parameters →
  bind_parameters rec parameters arguments st = (Ok arguments', st') →
  ∃ args1 s1 args2 s2,
    advance st s1 ∧
    args1 !! name = arguments !! name ∧
    bind_parameter rec (name, ann) args1 s1 = (Ok args2, s2) ∧
    arguments' !! name = args2 !! name ∧
    advance s2 st'.
Proof.
  intros Hrec. revert arguments st.
  induction parameters as [|[name0 ann0] ps IH]; intros arguments st Hnd Hin H.
  { by apply elem_of_nil in Hin. }
  change (bind (bind_parameter rec (name0, ann0) arguments)
               (λ a', bind_parameters rec ps a') st = (Ok arguments', st')) in H.
  apply bind_Ok_inv in H as (args1 & s1 & Hone & H).
  rewrite fmap_cons in Hnd. apply NoDup_cons in Hnd as [Hfresh Hnd].
  apply elem_of_cons in Hin as [[= -> ->]|Hin].
  - exists arguments, st, args1, s1.
    split; [apply advance_refl|]. split; [done|]. split; [done|].
    split; [by eapply bind_parameters_other_names|].
    by eapply bind_parameters_advance.
  - destruct (IH _ _ Hnd Hin H)
      as (a1 & t1 & a2 & t2 & Hadv & Hsame & Hturn & Hlast & Hrest).
    exists a1, t1, a2, t2.
    split; [eapply advance_trans; [by eapply bind_parameter_advance|done]|].
    split; [|done]. rewrite Hsame. eapply bind_parameter_other_names; [done|].
    intros ->. apply Hfresh. apply list_elem_of_fmap. by exists (name0, ann).
Qed.

(** From the end of the argument loop to the end of [construct]. *)
Lemma construct_tail_advance the_type arguments (stored : option (nat * _Component))
    s a s2 st' :
  call classes the_type arguments s = (Ok a, s2) →
  match stored with
  | Some comp => set_instance_if_singleton comp.1 a s2 = (Ok (), st')
  | None => st' = s2
  end →
  advance s st'.
Proof.
  intros Hcall Hset. pose proof (call_advance _ _ _ _ _ _ Hcall) as Hadv.
  destruct stored as [comp|]; [|by subst].
  eapply set_instance_advance; [exact Hadv| |exact Hset].
  apply call_Ok_inv in Hcall as (-> & -> & _). simpl. rewrite length_app. simpl. lia.
Qed.

Lemma parameter_turn_between fuel the_type kwargs st a st' param :
  nothing_cached the_type st →
  NoDup (p_name <$> cls_signature (classes the_type)) →
  param ∈ cls_signature (classes the_type) →
  p_name param ≠ "self" →
  assemble classes (S fuel) the_type kwargs st = (Ok a, st') →
  ∃ args1 s1 args2 s2 o,
    advance st s1 ∧
    args1 !! p_name param = kwargs !! p_name param ∧
    bind_parameter (assemble classes fuel) (p_name param, p_annotation param) args1 s1
      = (Ok args2, s2) ∧
    advance s2 st' ∧ length (heap s2) ≤ a ∧
    heap st' !! a = Some o ∧ obj_class o = the_type ∧
    obj_fields o !! p_name param
    = match args2 !! p_name param with
      | Some v => Some v
      | None => p_default param
      end.
Proof.
  intros Hnone Hnd Hin Hself H.
  apply assemble_constructed in H as (stored & H); [|done].
  pose proof (construct_result _ _ _ _ _ _ _ _ H) as (args & s3 & Hb & Ha & _ & _ & Hobj).
  apply construct_Ok_inv in H as (ps & args' & s3' & s4 & Hc & Hb' & Hcall & Hset).
  apply collect_parameters_Ok in Hc as ->.
  assert (s3' = s3 ∧ args' = args) as [-> ->] by (split; congruence).
  pose proof (construct_tail_advance _ _ _ _ _ _ _ Hcall Hset) as Htail.
  assert (Hmem : (p_name param, p_annotation param)
                 ∈ (λ q, (p_name q, p_annotation q))
                     <$> filter (λ q, p_name q ≠ "self")
                                (cls_signature (classes the_type))).
  { apply (list_elem_of_fmap_2 (λ q, (p_name q, p_annotation q))).
    by apply list_elem_of_filter. }
  destruct (bind_parameters_turn_between _ _ _ _ _ _ _ _
              (assemble_advance classes fuel) (collected_names_NoDup _ Hnd) Hmem Hb)
    as (args1 & t1 & args2 & t2 & Hadv & Hsame & Hturn & Hlast & Hrest).
  eexists args1, t1, args2, t2, _.
  split; [done|]. split; [done|]. split; [done|].
  split; [by eapply advance_trans|].
  split; [destruct Hrest as [Hp _]; apply prefix_length in Hp; lia|].
  split; [exact Hobj|].
  split; [done|]. simpl. rewrite (bound_fields_lookup _ _ _ Hnd Hin).
  unfold bound_value. by rewrite Hlast.
Qed.

(** A successful [assemble] of a class for which the component at [r] is
    found: the cached instance, or a new object of that class. *)
Lemma assemble_found_Ok fuel the_type kwargs st a st' r c :
  ENTERPRYTHON_COMPONENTS st !! r = Some c →
  matches c (AnnClass the_type) = true →
  assemble classes fuel the_type kwargs st = (Ok a, st') →
  (_is_singleton c = true ∧ _instance c = Some a ∧ st' = st) ∨
  (_instance c = None ∧ length (heap st) ≤ a < length (heap st') ∧
   (∃ o, heap st' !! a = Some o ∧ obj_class o = the_type) ∧
   (_is_singleton c = true →
    ∃ c', ENTERPRYTHON_COMPONENTS st' !! r = Some c' ∧ _instance c' = Some a)).
Proof.
  intros Hr Hm H.
  destruct (assemble_registered_Ok _ _ _ _ _ _ _ _ _ Hr Hm H)
    as [?|(Hi & Hfresh & Hcached)]; [by left|].
  right. split; [done|]. split; [done|]. split; [|done].
  destruct fuel as [|fuel]; [done|].
  apply assemble_Ok_inv in H as (stored & Hcomps & [(comp & -> & Hi' & _)|[_ H]]).
  - assert (Hin : (r, c) ∈ _get_components (AnnClass the_type) st)
      by by apply elem_of_get_components.
    rewrite Hcomps in Hin. apply list_elem_of_singleton in Hin as <-.
    simpl in Hi'. congruence.
  - apply construct_result in H as (args & s1 & _ & _ & _ & _ & Hobj). eauto.
Qed.

Lemma assemble_resolved fuel st s1 s2 st' limit r c instance :
  advance st s1 →
  ENTERPRYTHON_COMPONENTS st !! r = Some c →
  _type c ∈ _base_classes c →
  assemble classes fuel (_type c) ∅ s1 = (Ok instance, s2) →
  advance s2 st' → length (heap s2) ≤ limit →
  resolved st st' limit (r, c) instance.
Proof.
  intros Hadv Hr Hown H Hrest Hlimit.
  destruct (advance_extends _ _ Hadv) as [Hp1 Hext1].
  destruct (Hext1 r c Hr) as (c1 & Hr1 & Ht & Hs & Hb & Hi).
  apply prefix_length in Hp1.
  destruct (advance_extends _ _ Hrest) as [Hp2 Hext2].
  assert (Hm : matches c1 (AnnClass (_type c)) = true).
  { simpl. apply bool_decide_eq_true_2. by rewrite Hb. }
  unfold resolved. simpl.
  destruct (assemble_found_Ok _ _ _ _ _ _ _ _ Hr1 Hm H)
    as [(Hsing & Hi1 & ->)|(Hi1 & Hfresh & (o & Ho & Hcls) & Hcached)].
  - split; [|split; [|split]].
    + intros cached Hc. rewrite Hc in Hi. congruence.
    + intros Hnone. rewrite Hnone in Hi. destruct (Hi _ Hi1) as [_ ?]. lia.
    + intros _. destruct (Hext2 r c1 Hr1) as (c' & Hr' & _ & _ & _ & Hkeep).
      rewrite Hi1 in Hkeep. eauto.
    + intros Hfalse. congruence.
  - split; [|split; [|split]].
    + intros cached Hc. rewrite Hc in Hi. congruence.
    + intros _. lia.
    + intros Hsing. destruct Hcached as (c2 & Hr2 & Hi2); [congruence|].
      destruct (Hext2 r c2 Hr2) as (c' & Hr' & _ & _ & _ & Hkeep).
      rewrite Hi2 in Hkeep. eauto.
    + intros _. exists o. split; [by eapply prefix_lookup_Some|done].
Qed.

Lemma assemble_each_advance rec ts st instances st' :
  advancing rec → assemble_each rec ts st instances st' → advance st st'.
Proof.
  intros Hrec. induction 1 as [|t ts st a st1 instances st2 Ha _ IH];
    [apply advance_refl|].
  eapply advance_trans; [by eapply Hrec|done].
Qed.

Lemma assemble_each_resolved fuel st st' limit (found : list (nat * _Component))
    s1 instances s2 :
  Forall (λ comp, ENTERPRYTHON_COMPONENTS st !! comp.1 = Some comp.2 ∧
                  _type comp.2 ∈ _base_classes comp.2) found →
  advance st s1 →
  assemble_each (assemble classes fuel)
    (map (λ comp, get_type comp.2) found) s1 instances s2 →
  advance s2 st' → length (heap s2) ≤ limit →
  Forall2 (resolved st st' limit) found instances.
Proof.
  intros Hfound. revert s1 instances.
  induction Hfound as [|[r c] found [Hr Hown] _ IH]; intros s1 instances Hadv Heach Hrest Hlimit.
  { inversion Heach; subst. constructor. }
  simpl in Heach. inversion Heach as [|t ts s a sm rest s' Ha Hrest_each]; subst.
  pose proof (assemble_each_advance _ _ _ _ _ (assemble_advance classes fuel) Hrest_each)
    as Hmid.
  constructor.
  - eapply (assemble_resolved fuel st s1 sm); try done.
    + by eapply advance_trans.
    + destruct Hmid as [Hp _]. apply prefix_length in Hp. lia.
  - apply (IH sm rest); [|exact Hrest_each|exact Hrest|exact Hlimit].
    eapply advance_trans; [exact Hadv|]. by eapply assemble_advance.
Qed.

(** ** Construction without any component *)

Lemma collect_parameters_all (params : list Param) st :
  Forall (λ param, p_name param = "self" ∨ p_kind param = POSITIONAL_OR_KEYWORD) params →
  collect_parameters params st
  = (Ok ((λ param, (p_name param, p_annotation param))
           <$> filter (λ param, p_name param ≠ "self") params), st).
Proof.
  induction 1 as [|p ps Hp _ IH]; [done|]. simpl. rewrite filter_cons.
  case_bool_decide as Hself.
  - by rewrite decide_False by (intros ?; done).
  - rewrite decide_True by done. destruct Hp as [?| ->]; [done|].
    by rewrite (bind_Ok _ _ _ _ _ IH).
Qed.

Lemma bind_parameters_absent rec (parameters : list (string * annotation)) arguments st :
  Forall (λ parameter, _is_list_type parameter.2 = false ∧
                       _get_components parameter.2 st = []) parameters →
  bind_parameters rec parameters arguments st = (Ok arguments, st).
Proof.
  induction 1 as [|[name ann] ps [Hl Hn] _ IH]; [done|].
  change (bind (bind_parameter rec (name, ann) arguments)
               (bind_parameters rec ps) st = (Ok arguments, st)).
  by rewrite (bind_Ok _ _ _ _ _ (bind_parameter_absent rec name ann arguments st Hl Hn)).
Qed.

(** When neither the target nor any of its parameters finds a component,
    [assemble] is the call of the class with the caller's arguments. *)
Lemma assemble_without_components fuel the_type kwargs st :
  _get_components (AnnClass the_type) st = [] →
  cls_abstract (classes the_type) = false →
  Forall (λ param, p_name param = "self" ∨
                   (p_kind param = POSITIONAL_OR_KEYWORD ∧
                    _is_list_type (p_annotation param) = false ∧
                    _get_components (p_annotation param) st = []))
         (cls_signature (classes the_type)) →
  unexpected_keywords (cls_signature (classes the_type)) kwargs = [] →
  missing_arguments (cls_signature (classes the_type)) kwargs = [] →
  assemble classes (S fuel) the_type kwargs st
  = (Ok (length (heap st)),
     {| ENTERPRYTHON_COMPONENTS := ENTERPRYTHON_COMPONENTS st;
        heap := heap st ++
          [ {| obj_class := the_type;
               obj_fields := bound_fields (cls_signature (classes the_type)) kwargs |} ] |}).
Proof.
  intros Hnone Habs Hparams Hunexp Hmiss.
  rewrite (assemble_constructs _ _ _ _ _ None) by
    (done || (unfold nothing_cached; by rewrite Hnone)).
  unfold construct.
  assert (Hkinds : Forall (λ q, p_name q = "self" ∨ p_kind q = POSITIONAL_OR_KEYWORD)
                          (cls_signature (classes the_type))).
  { eapply Forall_impl; [exact Hparams|]. intros q [?|[? _]]; auto. }
  assert (Habsent : Forall (λ parameter : string * annotation,
                              _is_list_type parameter.2 = false ∧
                              _get_components parameter.2 st = [])
                      ((λ q, (p_name q, p_annotation q))
                         <$> filter (λ q, p_name q ≠ "self")
                                    (cls_signature (classes the_type)))).
  { apply Forall_fmap, Forall_forall. intros q Hq.
    apply list_elem_of_filter in Hq as [Hne Hq]. rewrite Forall_forall in Hparams.
    destruct (Hparams q Hq) as [?|(_ & ? & ?)]; done. }
  rewrite (bind_Ok _ _ _ _ _ (collect_parameters_all _ st Hkinds)).
  rewrite (bind_Ok _ _ _ _ _ (bind_parameters_absent (assemble classes fuel) _ kwargs st Habsent)).
  unfold call, bind, ret. rewrite Habs, Hunexp, Hmiss. done.
Qed.


End Parameters.

(** ** Lookup and registration *)

Section Registry.

Variable classes : cname → class_info.

(** Once a class has been registered, its component is found for it in
    every later state. *)
Lemma registered_stays singleton the_type st0 t st1 st :
  component classes singleton (TClass the_type) st0 = (Ok t, st1) →
  rtc (step classes) st1 st →
  cls_abstract (classes the_type) = false ∧
  ∃ c,
    ENTERPRYTHON_COMPONENTS st !! length (ENTERPRYTHON_COMPONENTS st0) = Some c ∧
    _is_singleton c = singleton ∧
    matches c (AnnClass the_type) = true ∧
    (∀ a, _instance c = Some a → length (heap st0) ≤ a < length (heap st)).
Proof.
  intros Hreg Hsteps.
  apply component_Ok_inv in Hreg as (c0 & [= <-] & -> & Habs & Hadd).
  split; [done|]. apply add_component_Ok_inv in Hadd as [_ ->].
  apply steps_extend in Hsteps as [_ Hext]. simpl in Hext.
  destruct (Hext (length (ENTERPRYTHON_COMPONENTS st0))
                 (new_component (getmro classes the_type) the_type singleton))
    as (c & Hc & _ & Hs & Hb & Hi).
  { rewrite lookup_app_r by done. by rewrite Nat.sub_diag. }
  exists c. split; [done|]. split; [done|]. split.
  - unfold matches. rewrite Hb. simpl. apply bool_decide_eq_true_2. constructor.
  - intros a Ha. destruct (Hi a Ha) as [_ Hrange]. exact Hrange.
Qed.

(** C3: looking up a component for a type raises the ambiguous-dependency
    [TypeError] whenever more than one registered component matches it.
    When none matches, the lookup returns [None] without raising, and
    [assemble] goes on without it.  A parameter of that type is left alone
    in its turn of the argument loop, in whatever state the earlier
    parameters leave, so that the object constructed has the caller's value
    for it or else its declared default.  A target of that type is
    constructed directly: when its parameters find no component either,
    [assemble] returns a new object of the target class at the next free
    address, whose attributes are the caller's values and the declared
    defaults, and changes nothing else. *)
Theorem lookup_ambiguous_or_absent (the_type : annotation) (st : state) :
  (1 < length (_get_components the_type st) →
   _get_component the_type st
   = (Raise (TypeError (AmbiguousDependency the_type)), st)) ∧
  (_get_components the_type st = [] →
   _get_component the_type st = (Ok None, st) ∧
   (∀ rec name arguments s,
      _is_list_type the_type = false → advance st s →
      bind_parameter rec (name, the_type) arguments s = (Ok arguments, s)) ∧
   (∀ fuel target kwargs a st' param,
      p_annotation param = the_type → _is_list_type the_type = false →
      nothing_cached target st →
      NoDup (p_name <$> cls_signature (classes target)) →
      param ∈ cls_signature (classes target) → p_name param ≠ "self" →
      assemble classes (S fuel) target kwargs st = (Ok a, st') →
      ∃ o, heap st' !! a = Some o ∧
           obj_fields o !! p_name param
           = match kwargs !! p_name param with
             | Some v => Some v
             | None => p_default param
             end) ∧
   (∀ fuel target kwargs,
      the_type = AnnClass target →
      assemble classes (S fuel) target kwargs st
      = construct classes (assemble classes fuel) target kwargs None st) ∧
   (∀ fuel target kwargs,
      the_type = AnnClass target →
      cls_abstract (classes target) = false →
      Forall (λ param, p_name param = "self" ∨
                       (p_kind param = POSITIONAL_OR_KEYWORD ∧
                        _is_list_type (p_annotation param) = false ∧
                        _get_components (p_annotation param) st = []))
             (cls_signature (classes target)) →
      unexpected_keywords (cls_signature (classes target)) kwargs = [] →
      missing_arguments (cls_signature (classes target)) kwargs = [] →
      assemble classes (S fuel) target kwargs st
      = (Ok (length (heap st)),
         {| ENTERPRYTHON_COMPONENTS := ENTERPRYTHON_COMPONENTS st;
            heap := heap st ++
              [ {| obj_class := target;
                   obj_fields :=
                     bound_fields (cls_signature (classes target)) kwargs |} ] |}) ∧
      (NoDup (p_name <$> cls_signature (classes target)) →
       ∀ param, param ∈ cls_signature (classes target) →
         bound_fields (cls_signature (classes target)) kwargs !! p_name param
         = match kwargs !! p_name param with
           | Some v => Some v
           | None => p_default param
           end))).
Proof.
  split; [apply get_component_many|]. intros Hnone.
  split; [by apply get_component_none|]. split; [|split; [|split]].
  - intros rec name arguments s Hl Hadv. apply bind_parameter_absent; [done|].
    by eapply get_components_empty_advance.
  - intros fuel target kwargs a st' param <- Hl Hcache Hnd Hin Hself H.
    destruct (parameter_turn _ _ _ _ _ _ _ _ Hcache Hnd Hin Hself H)
      as (args1 & s1 & args2 & s2 & o & Hadv & Hsame & Hturn & Hobj & _ & Hfield).
    rewrite bind_parameter_absent in Hturn
      by eauto using get_components_empty_advance.
    injection Hturn as <- <-. exists o. by rewrite <-Hsame.
  - intros fuel target kwargs ->. apply assemble_constructs; [done|].
    unfold nothing_cached. by rewrite Hnone.
  - intros fuel target kwargs -> Habs Hparams Hunexp Hmiss. split.
    + by apply assemble_without_components.
    + intros Hnd param Hin. by rewrite (bound_fields_lookup _ _ _ Hnd Hin).
Qed.

(** C8: once a class has been registered as a component, registering the
    same class again, whatever happened in between, raises a [TypeError]
    and leaves the registry, and the rest of the state, as it was.  The
    message is the one of the duplicate registration, unless a subclass
    was registered meanwhile: then the lookup that guards the registration
    already raises the ambiguous-dependency [TypeError]. *)
Theorem duplicate_registration_rejected singleton singleton' the_type st0 t st1 st :
  component classes singleton (TClass the_type) st0 = (Ok t, st1) →
  rtc (step classes) st1 st →
  ∃ e,
    _add_component classes the_type singleton' st = (Raise (TypeError e), st) ∧
    component classes singleton' (TClass the_type) st = (Raise (TypeError e), st) ∧
    (e = AlreadyRegistered the_type ∨ e = AmbiguousDependency (AnnClass the_type)) ∧
    (length (_get_components (AnnClass the_type) st) = 1 →
     e = AlreadyRegistered the_type).
Proof.
  intros Hreg Hsteps.
  destruct (registered_stays _ _ _ _ _ _ Hreg Hsteps) as (Habs & c & Hc & _ & Hm & _).
  assert (Hin : (length (ENTERPRYTHON_COMPONENTS st0), c)
                ∈ _get_components (AnnClass the_type) st)
    by by apply elem_of_get_components.
  assert (Hadd : ∃ e,
    _add_component classes the_type singleton' st = (Raise (TypeError e), st) ∧
    (e = AlreadyRegistered the_type ∨ e = AmbiguousDependency (AnnClass the_type)) ∧
    (length (_get_components (AnnClass the_type) st) = 1 →
     e = AlreadyRegistered the_type)).
  { unfold _add_component.
    destruct (_get_components (AnnClass the_type) st) as [|rc [|rc' l]] eqn:Hcomps.
    - by apply elem_of_nil in Hin.
    - rewrite (bind_Ok _ _ _ _ _ (get_component_one _ _ _ Hcomps)). eauto.
    - rewrite <-Hcomps in *. unfold bind.
      rewrite get_component_many by (rewrite Hcomps; simpl; lia).
      eexists. split; [done|]. split; [by right|]. rewrite Hcomps. simpl. lia. }
  destruct Hadd as (e & Hadd & He & Hone). exists e.
  split; [done|]. split; [|done].
  unfold component. rewrite Habs. unfold bind. by rewrite Hadd.
Qed.

End Registry.

(** ** Singletons *)

Section Singletons.

Variable classes : cname → class_info.


(** The one place that writes a cache keeps every instance that is
    cached. *)
Lemma set_instance_keeps r instance st o st' r' c cached :
  set_instance_if_singleton r instance st = (o, st') →
  ENTERPRYTHON_COMPONENTS st !! r' = Some c → _instance c = Some cached →
  ∃ c', ENTERPRYTHON_COMPONENTS st' !! r' = Some c' ∧ _instance c' = Some cached.
Proof.
  unfold set_instance_if_singleton. intros H Hr' Hi.
  destruct (ENTERPRYTHON_COMPONENTS st !! r) as [c0|] eqn:Hr;
    [|injection H as _ <-; eauto].
  destruct (_is_singleton c0); [|injection H as _ <-; eauto].
  destruct (_instance c0) eqn:Hi0; injection H as _ <-; [eauto|]. simpl.
  destruct (decide (r' = r)) as [->|Hne]; [congruence|].
  rewrite list_lookup_insert_ne by done. eauto.
Qed.

(** C9: over any sequence of calls of [assemble] and registrations, a
    component keeps the instance it has cached; a cache that was empty and
    is not any more belongs to a singleton and holds an object constructed
    in between.  A newly registered component has an empty cache.  When
    the component [assemble] finds for the requested type is a singleton
    with a cached instance, [assemble] returns that instance and leaves
    the state, heap included, untouched: nothing is constructed.  And the
    writer itself never reassigns, in whatever state it is called: every
    cached instance is still cached after [set_instance_if_singleton], which
    on a singleton holding an instance raises [AssertionError] and changes
    nothing; so when the cache of the component found at the start of
    [assemble] is filled by the time the target has been called, that is by
    a nested call, [assemble] raises [AssertionError] and the cache keeps
    the instance it had. *)
Theorem cached_instance_invariant (st : state) :
  (∀ st', rtc (step classes) st st' →
     ∀ r c, ENTERPRYTHON_COMPONENTS st !! r = Some c →
       ∃ c', ENTERPRYTHON_COMPONENTS st' !! r = Some c' ∧
         (∀ a, _instance c = Some a → _instance c' = Some a) ∧
         (∀ a, _instance c = None → _instance c' = Some a →
               _is_singleton c = true ∧
               length (heap st) ≤ a < length (heap st'))) ∧
  (∀ the_type singleton st',
     _add_component classes the_type singleton st = (Ok (), st') →
     ∃ c, ENTERPRYTHON_COMPONENTS st'
          = ENTERPRYTHON_COMPONENTS st ++ [c] ∧ _instance c = None) ∧
  (∀ fuel the_type kwargs comp a,
     _get_component (AnnClass the_type) st = (Ok (Some comp), st) →
     _is_singleton comp.2 = true → _instance comp.2 = Some a →
     assemble classes (S fuel) the_type kwargs st = (Ok a, st)) ∧
  (∀ r instance o st' r' c cached,
     set_instance_if_singleton r instance st = (o, st') →
     ENTERPRYTHON_COMPONENTS st !! r' = Some c → _instance c = Some cached →
     ∃ c', ENTERPRYTHON_COMPONENTS st' !! r' = Some c' ∧
           _instance c' = Some cached) ∧
  (∀ r instance c cached,
     ENTERPRYTHON_COMPONENTS st !! r = Some c →
     _is_singleton c = true → _instance c = Some cached →
     set_instance_if_singleton r instance st = (Raise AssertionError, st)) ∧
  (∀ fuel the_type kwargs comp parameters arguments s1 a s2 c2 cached,
     _get_components (AnnClass the_type) st = [comp] →
     _instance comp.2 = None →
     collect_parameters (cls_signature (classes the_type)) st = (Ok parameters, st) →
     bind_parameters (assemble classes fuel) parameters kwargs st = (Ok arguments, s1) →
     call classes the_type arguments s1 = (Ok a, s2) →
     ENTERPRYTHON_COMPONENTS s2 !! comp.1 = Some c2 →
     _is_singleton c2 = true → _instance c2 = Some cached →
     assemble classes (S fuel) the_type kwargs st = (Raise AssertionError, s2)).
Proof.
  split; [|split; [|split; [|split; [|split]]]].
  - intros st' Hsteps r c Hc. destruct (steps_extend _ _ _ Hsteps) as [_ Hext].
    destruct (Hext r c Hc) as (c' & Hc' & _ & _ & _ & Hi). exists c'.
    split; [done|]. destruct (_instance c) as [a0|]; split; try done.
    + intros a [= <-]. done.
    + intros a _ Ha. by apply Hi.
  - intros the_type singleton st' Hadd.
    apply add_component_Ok_inv in Hadd as [_ ->]. by eexists.
  - intros fuel the_type kwargs comp a Hget Hs Hi. simpl.
    rewrite (bind_Ok _ _ _ _ _ Hget). unfold get_instance. rewrite Hs. simpl.
    unfold bind, ret. by rewrite Hi.
  - intros r instance o st' r' c cached. apply set_instance_keeps.
  - intros r instance c cached Hr Hs Hi. unfold set_instance_if_singleton.
    by rewrite Hr, Hs, Hi.
  - intros fuel the_type kwargs comp parameters arguments s1 a s2 c2 cached
      Hcomps Hnone Hcollect Hbind Hcall Hr2 Hs2 Hi2.
    rewrite (assemble_constructs _ _ _ _ _ (Some comp)); [|done|].
    2:{ unfold nothing_cached. rewrite Hcomps. by repeat constructor. }
    unfold construct.
    rewrite (bind_Ok _ _ _ _ _ Hcollect), (bind_Ok _ _ _ _ _ Hbind),
            (bind_Ok _ _ _ _ _ Hcall).
    unfold bind, set_instance_if_singleton. by rewrite Hr2, Hs2, Hi2.
Qed.

End Singletons.

(** ** What [assemble] binds to a parameter *)

Section Binding.

Variable classes : cname → class_info.

(** The attribute of a parameter annotated [List[elem]]. *)
Lemma list_parameter_attribute fuel the_type kwargs st a st' param elem :
  nothing_cached the_type st →
  NoDup (p_name <$> cls_signature (classes the_type)) →
  param ∈ cls_signature (classes the_type) →
  p_name param ≠ "self" →
  p_annotation param = AnnList elem →
  assemble classes (S fuel) the_type kwargs st = (Ok a, st') →
  ∃ s1 s2 instances o,
    assemble_each (assemble classes fuel)
      (map (λ comp, get_type comp.2) (_get_components elem st)) s1 instances s2 ∧
    heap st' !! a = Some o ∧ obj_class o = the_type ∧
    obj_fields o !! p_name param = Some (VList (VRef <$> instances)).
Proof.
  intros Hcache Hnd Hin Hself Hann H.
  destruct (parameter_turn _ _ _ _ _ _ _ _ Hcache Hnd Hin Hself H)
    as (args1 & s1 & args2 & s2 & o & Hadv & _ & Hturn & Hobj & Hcls & Hfield).
  rewrite Hann in Hturn.
  apply bind_parameter_list in Hturn as (instances & Heach & ->).
  destruct Hadv as [_ Hall].
  rewrite (matching_types_evolves _ _ elem _ _ Hall) in Heach.
  rewrite <-get_components_types in Heach.
  exists s1, s2, instances, o. split; [done|].
  split; [done|]. split; [done|]. by rewrite Hfield, lookup_insert_eq.
Qed.

(** C4: when [assemble] constructs an object and a parameter of the
    constructor, for which the caller gives no value, is annotated
    [List[elem]], the attribute of that parameter is a list with one
    instance for each registered component matching [elem], in the order
    of the registry, which is the order of registration ([_add_component]
    appends).  The instances are what the recursive calls of [assemble]
    for the types of these components returned, one call after the other,
    between the start and the end of this call; and the instance at the
    place of a component is the instance of that component: the one it had
    cached at the start, or else an object allocated during this call,
    which a singleton has cached at the end and which for any other
    component is of the component's class.  Each of the components has its
    own class among its base classes, as every registered component has. *)
Theorem list_parameter_gets_all_components fuel the_type kwargs st a st' param elem :
  nothing_cached the_type st →
  NoDup (p_name <$> cls_signature (classes the_type)) →
  param ∈ cls_signature (classes the_type) →
  p_name param ≠ "self" →
  p_annotation param = AnnList elem →
  kwargs !! p_name param = None →
  Forall (λ comp, _type comp.2 ∈ _base_classes comp.2) (_get_components elem st) →
  assemble classes (S fuel) the_type kwargs st = (Ok a, st') →
  ∃ s1 s2 instances o,
    advance st s1 ∧ advance s2 st' ∧
    assemble_each (assemble classes fuel)
      (_type <$> filter (λ c, Is_true (matches c elem)) (ENTERPRYTHON_COMPONENTS st))
      s1 instances s2 ∧
    length instances = length (_get_components elem st) ∧
    Forall2 (resolved st st' a) (_get_components elem st) instances ∧
    heap st' !! a = Some o ∧ obj_class o = the_type ∧
    obj_fields o !! p_name param = Some (VList (VRef <$> instances)).
Proof.
  intros Hcache Hnd Hin Hself Hann _ Hown H.
  destruct (parameter_turn_between _ _ _ _ _ _ _ _ Hcache Hnd Hin Hself H)
    as (args1 & s1 & args2 & s2 & o & Hadv & _ & Hturn & Hrest & Hlimit
        & Hobj & Hcls & Hfield).
  rewrite Hann in Hturn.
  apply bind_parameter_list in Hturn as (instances & Heach & ->).
  pose proof Hadv as [_ Hall].
  rewrite (matching_types_evolves _ _ elem _ _ Hall) in Heach.
  assert (Hres : Forall2 (resolved st st' a) (_get_components elem st) instances).
  { eapply (assemble_each_resolved classes fuel st st' a _ s1 instances s2);
      [|exact Hadv| |exact Hrest|exact Hlimit].
    - apply Forall_forall. intros [r c] Hmem. split.
      + by apply elem_of_get_components in Hmem as [? _].
      + rewrite Forall_forall in Hown. by apply (Hown (r, c)).
    - by rewrite get_components_types. }
  exists s1, s2, instances, o. split; [done|]. split; [done|]. split; [done|].
  split; [symmetry; by eapply Forall2_length|]. split; [done|].
  split; [done|]. split; [done|]. by rewrite Hfield, lookup_insert_eq.
Qed.

(** C5: when [assemble] constructs an object and a parameter that has a
    declared default, and no value from the caller, is annotated with a
    type for which a component is registered, the attribute of that
    parameter is the instance of the component and not the default: it is
    what the recursive [assemble] of the component's type returned between
    the start and the end of this call, that is the instance the component
    had cached at the start, or else an object allocated during this call,
    which a singleton has cached at the end and which for any other
    component is of the component's class.  An object allocated during the
    call is none that existed before, as the object of a default does.  The
    component has its own class among its base classes, as every
    registered component has. *)
Theorem component_preferred_over_default
    fuel the_type kwargs st a st' param default comp :
  nothing_cached the_type st →
  NoDup (p_name <$> cls_signature (classes the_type)) →
  param ∈ cls_signature (classes the_type) →
  p_name param ≠ "self" →
  p_default param = Some default →
  kwargs !! p_name param = None →
  comp ∈ _get_components (p_annotation param) st →
  _type comp.2 ∈ _base_classes comp.2 →
  assemble classes (S fuel) the_type kwargs st = (Ok a, st') →
  ∃ s1 s2 instance o,
    advance st s1 ∧ advance s2 st' ∧
    assemble classes fuel (_type comp.2) ∅ s1 = (Ok instance, s2) ∧
    resolved st st' a comp instance ∧
    (_instance comp.2 = None →
     ∀ d, default = VRef d → d < length (heap st) → VRef instance ≠ default) ∧
    heap st' !! a = Some o ∧ obj_class o = the_type ∧
    obj_fields o !! p_name param = Some (VRef instance).
Proof.
  intros Hcache Hnd Hin Hself _ _ Hcomp Hown H.
  destruct (parameter_turn_between _ _ _ _ _ _ _ _ Hcache Hnd Hin Hself H)
    as (args1 & s1 & args2 & s2 & o & Hadv & _ & Hturn & Hrest & Hlimit
        & Hobj & Hcls & Hfield).
  assert (Hlist : _is_list_type (p_annotation param) = false).
  { destruct comp as [r c]. apply elem_of_get_components in Hcomp as [_ Hm].
    by destruct (p_annotation param). }
  destruct (get_components_advance _ _ _ _ Hadv Hcomp) as (c' & Hin' & Hty).
  assert (Hone : _get_components (p_annotation param) s1 = [(comp.1, c')]).
  { pose proof Hturn as Hfound. unfold bind_parameter in Hfound. rewrite Hlist in Hfound.
    apply bind_Ok_inv in Hfound as (found & s0 & Hget & _).
    apply get_component_Ok_inv in Hget as [Hcomps _]. rewrite Hcomps in Hin' |- *.
    destruct found as [rc|]; [|by apply elem_of_nil in Hin'].
    apply list_elem_of_singleton in Hin' as <-. done. }
  destruct (bind_parameter_component _ _ _ _ _ _ _ _ Hlist Hone Hturn)
    as (instance & Hrec & ->).
  simpl in Hrec. rewrite Hty in Hrec.
  assert (Hres : resolved st st' a comp instance).
  { destruct comp as [r c]. apply elem_of_get_components in Hcomp as [Hr _].
    by eapply (assemble_resolved classes fuel st s1 s2). }
  exists s1, s2, instance, o. split; [done|]. split; [done|]. split; [done|].
  split; [done|]. split.
  - intros Hnone d -> Hd [= ->]. destruct Hres as (_ & Hfresh & _).
    destruct (Hfresh Hnone). lia.
  - split; [done|]. split; [done|]. by rewrite Hfield, lookup_insert_eq.
Qed.

(** C10: when no registered component matches [elem], a parameter
    annotated [List[elem]], for which the caller gives no value, is bound
    to the empty list.  Its turn of the argument loop neither raises nor
    changes the state and binds the empty list to the name; and the object
    [assemble] constructs has the empty list as that attribute, whether or
    not the parameter declares a default. *)
Theorem list_parameter_without_components (elem : annotation) (st : state) :
  _get_components elem st = [] →
  (∀ rec name arguments,
     arguments !! name = None →
     bind_parameter rec (name, AnnList elem) arguments st
     = (Ok (<[name := VList []]> arguments), st)) ∧
  (∀ fuel the_type kwargs a st' param,
     nothing_cached the_type st →
     NoDup (p_name <$> cls_signature (classes the_type)) →
     param ∈ cls_signature (classes the_type) →
     p_name param ≠ "self" →
     p_annotation param = AnnList elem →
     kwargs !! p_name param = None →
     assemble classes (S fuel) the_type kwargs st = (Ok a, st') →
     ∃ o, heap st' !! a = Some o ∧ obj_class o = the_type ∧
          obj_fields o !! p_name param = Some (VList [])).
Proof.
  intros Hnone. split.
  - intros rec name arguments _. unfold bind_parameter. simpl.
    unfold bind, ret, gets. rewrite Hnone. done.
  - intros fuel the_type kwargs a st' param Hcache Hnd Hin Hself Hann _ H.
    destruct (list_parameter_attribute _ _ _ _ _ _ _ _
                Hcache Hnd Hin Hself Hann H)
      as (s1 & s2 & instances & o & Heach & Hobj & Hcls & Hfield).
    rewrite Hnone in Heach. inversion Heach; subst. eauto.
Qed.

End Binding.

(** ** Parameters left without a value *)

Section Unbound.

Variable classes : cname → class_info.







End Unbound.

(** ** The claims on the classes of the test suite *)

Section OnTheTests.

Import Tests.

Local Ltac run := vm_compute; reflexivity.
Local Ltac decided := apply (bool_decide_unpack _); vm_compute; exact I.

(** [test_singleton], [test_non_singleton], [test_multiple_layers],
    [test_interface], [test_default_arguments], [test_overwrite_default],
    [test_service_list], [test_ambiguous], [test_unknown_service_type] and
    [test_double_registration] run in the model as in Python. *)
Example test_singleton :
  attribute (after (assemble classes 2 "Client" ∅) loaded) 4 "service"
  = attribute
      (after (assemble classes 2 "Client" ∅)
             (after (assemble classes 2 "Client" ∅) loaded)) 5 "service".
Proof. run. Qed.

Example test_non_singleton :
  attribute (after (assemble classes 2 "ClientNonSingleton" ∅) loaded) 4 "service"
  = Some (VRef 3) ∧
  attribute
    (after (assemble classes 2 "ClientNonSingleton" ∅)
           (after (assemble classes 2 "ClientNonSingleton" ∅) loaded)) 6 "service"
  = Some (VRef 5).
Proof. split; run. Qed.

Example test_multiple_layers :
  (assemble classes 3 "Layer1" ∅ loaded).1 = Ok 5 ∧
  attribute (after (assemble classes 3 "Layer1" ∅) loaded) 5 "service" = Some (VRef 4) ∧
  attribute (after (assemble classes 3 "Layer1" ∅) loaded) 4 "service" = Some (VRef 3) ∧
  attribute (after (assemble classes 3 "Layer1" ∅) loaded) 3 "value" = Some (VInt 42) ∧
  (assemble classes 2 "Layer1" ∅ loaded).1 = OutOfFuel.
Proof. repeat split; run. Qed.

Example test_interface :
  attribute (after (assemble classes 2 "ClientDependingOnInterface" ∅) loaded) 4 "service"
  = Some (VRef 3) ∧
  obj_class <$> heap (after (assemble classes 2 "ClientDependingOnInterface" ∅) loaded) !! 3
  = Some "Service".
Proof. split; run. Qed.

Example test_default_arguments :
  attribute (after (assemble classes 2 "ClientACDefaultC" ∅) loaded) 4 "service_c"
  = Some (VRef c_default).
Proof. run. Qed.

Example test_overwrite_default :
  attribute (after (assemble classes 2 "ClientABDefaultB" ∅) loaded) 5 "service_b"
  = Some (VRef 4) ∧
  attribute (after (assemble classes 2 "ClientABDefaultB" ∅) loaded) 4 "value"
  = Some (VStr "B").
Proof. split; run. Qed.

Example test_service_list :
  attribute
    (after (assemble classes 2 "ClientDependingOnAllMultiServiceInterfaceImpls" ∅) loaded)
    5 "services"
  = Some (VList [VRef 3; VRef 4]) ∧
  obj_class <$>
    heap (after (assemble classes 2 "ClientDependingOnAllMultiServiceInterfaceImpls" ∅)
                loaded) !! 3 = Some "ServiceMultiA" ∧
  obj_class <$>
    heap (after (assemble classes 2 "ClientDependingOnAllMultiServiceInterfaceImpls" ∅)
                loaded) !! 4 = Some "ServiceMultiB".
Proof. repeat split; run. Qed.

Example test_ambiguous :
  (assemble classes 2 "ClientDependingOnOneOfTwoServices" ∅ loaded).1
  = Raise (TypeError (AmbiguousDependency (AnnClass "MultiServiceInterface"))).
Proof. run. Qed.

Example test_unknown_service_type :
  (assemble classes 2 "ClientWithoutTypeAnnotation" ∅ loaded).1
  = Raise (TypeError (MissingArguments ["service"])).
Proof. run. Qed.

Example test_double_registration :
  (component classes true (TClass "Duplicate")
     (after (component classes true (TClass "Duplicate")) loaded)).1
  = Raise (TypeError (AlreadyRegistered "Duplicate")).
Proof. run. Qed.

(** C1, where the code departs from it: [test_manual_overwrite] calls
    [assemble(ClientAB, service_b=ServiceB('BManual'))].  The argument loop
    finds the component registered for [ServiceB] and puts its instance
    over the value of the caller: the new [ClientAB] holds the assembled
    [ServiceB], whose value is ['B'], and not the object passed in. *)
Theorem manual_overwrite_is_discarded :
  (assemble classes 2 "ClientAB" {[ "service_b" := VRef b_manual ]} loaded).1 = Ok 5 ∧
  attribute (after (assemble classes 2 "ClientAB" {[ "service_b" := VRef b_manual ]}) loaded)
            5 "service_b" = Some (VRef 4) ∧
  attribute (after (assemble classes 2 "ClientAB" {[ "service_b" := VRef b_manual ]}) loaded)
            4 "value" = Some (VStr "B") ∧
  attribute (after (assemble classes 2 "ClientAB" {[ "service_b" := VRef b_manual ]}) loaded)
            b_manual "value" = Some (VStr "BManual") ∧
  VRef 4 ≠ VRef b_manual.
Proof. repeat split; try run. discriminate. Qed.

(** The lookup for [MultiServiceInterface] is ambiguous once both
    implementations are registered, and finds nothing for
    [ServiceCNoComponent]: [assemble(ServiceCNoComponent)] constructs it
    with its default value, and [test_default_arguments] gets the default
    [ServiceCNoComponent('CDefault')]. *)
Lemma lookup_ambiguous_or_absent_witness :
  _get_component (AnnClass "MultiServiceInterface") loaded
  = (Raise (TypeError (AmbiguousDependency (AnnClass "MultiServiceInterface"))), loaded) ∧
  _get_component (AnnClass "ServiceCNoComponent") loaded = (Ok None, loaded) ∧
  assemble classes 1 "ServiceCNoComponent" ∅ loaded
  = (Ok (length (heap loaded)),
     {| ENTERPRYTHON_COMPONENTS := ENTERPRYTHON_COMPONENTS loaded;
        heap := heap loaded ++
          [ {| obj_class := "ServiceCNoComponent";
               obj_fields :=
                 bound_fields (cls_signature (classes "ServiceCNoComponent")) ∅ |} ] |}) ∧
  bound_fields (cls_signature (classes "ServiceCNoComponent")) ∅ !! "value"
  = Some (VStr "C") ∧
  ∃ o, heap (after (assemble classes 2 "ClientACDefaultC" ∅) loaded) !! 4 = Some o ∧
       obj_fields o !! "service_c" = Some (VRef c_default).
Proof.
  assert (Hnone : _get_components (AnnClass "ServiceCNoComponent") loaded = [])
    by (vm_compute; reflexivity).
  destruct (proj2 (lookup_ambiguous_or_absent classes
                     (AnnClass "ServiceCNoComponent") loaded) Hnone)
    as (Hlookup & _ & Hfield & _ & Hdirect).
  split.
  { apply (proj1 (lookup_ambiguous_or_absent classes
                    (AnnClass "MultiServiceInterface") loaded)).
    vm_compute. lia. }
  split; [exact Hlookup|].
  destruct (Hdirect 0 "ServiceCNoComponent" ∅ eq_refl) as [Hrun Hattr].
  - reflexivity.
  - repeat constructor; right; repeat split; vm_compute; reflexivity.
  - vm_compute. reflexivity.
  - vm_compute. reflexivity.
  - split; [exact Hrun|]. split.
    + apply (Hattr ltac:(decided)
               (optional "value" (AnnClass "str") (VStr "C"))).
      vm_compute. constructor.
    + assert (Hcache : nothing_cached "ClientACDefaultC" loaded)
        by (vm_compute; repeat constructor).
      assert (Hnd : NoDup (p_name <$> cls_signature (classes "ClientACDefaultC")))
        by decided.
      assert (Hin : optional "service_c" (AnnClass "ServiceCNoComponent") (VRef c_default)
                    ∈ cls_signature (classes "ClientACDefaultC"))
        by (vm_compute; apply list_elem_of_further, list_elem_of_here).
      assert (Hself : p_name (optional "service_c" (AnnClass "ServiceCNoComponent")
                                       (VRef c_default)) ≠ "self") by discriminate.
      assert (Hok : assemble classes 2 "ClientACDefaultC" ∅ loaded
                    = (Ok 4, after (assemble classes 2 "ClientACDefaultC" ∅) loaded))
        by (vm_compute; reflexivity).
      destruct (Hfield 1 "ClientACDefaultC" ∅ 4 _
                  (optional "service_c" (AnnClass "ServiceCNoComponent") (VRef c_default))
                  eq_refl eq_refl Hcache Hnd Hin Hself Hok)
        as (o & Ho & Hattr').
      exists o. split; [exact Ho|]. etrans; [exact Hattr'|reflexivity].
Defined.

(** [Service] decorated twice. *)
Lemma duplicate_registration_rejected_witness :
  ∃ e, _add_component classes "Service" true service_only
       = (Raise (TypeError e), service_only) ∧
       component classes true (TClass "Service") service_only
       = (Raise (TypeError e), service_only) ∧
       (e = AlreadyRegistered "Service" ∨
        e = AmbiguousDependency (AnnClass "Service")) ∧
       (length (_get_components (AnnClass "Service") service_only) = 1 →
        e = AlreadyRegistered "Service").
Proof.
  apply (duplicate_registration_rejected classes true true "Service"
           at_import (TClass "Service") service_only service_only).
  - vm_compute. reflexivity.
  - apply rtc_refl.
Defined.


(** A second call for [Service] returns the cached instance and changes
    nothing.  With only [Leaf] registered, [assemble(Node)] finds the
    component of [Leaf], whose cache the nested [assemble(Leaf)] fills with
    the object at 0: the new [Node] at 1 is not stored over it. *)
Lemma cached_instance_invariant_witness :
  assemble classes 1 "Service" ∅ (after (assemble classes 1 "Service" ∅) service_only)
  = (Ok 3, after (assemble classes 1 "Service" ∅) service_only) ∧
  assemble Nested.classes 2 "Node" ∅ Nested.leaf_only
  = (Raise AssertionError,
     after (call Nested.classes "Node" {[ "next" := VRef 0 ]})
           (after (assemble Nested.classes 1 "Leaf" ∅) Nested.leaf_only)) ∧
  _instance <$>
    ENTERPRYTHON_COMPONENTS
      (after (assemble Nested.classes 2 "Node" ∅) Nested.leaf_only) !! 0
  = Some (Some 0).
Proof.
  split; [|split].
  - apply (proj1 (proj2 (proj2 (cached_instance_invariant classes
                         (after (assemble classes 1 "Service" ∅) service_only))))
           0 "Service" ∅
           (0, {| _type := "Service"; _is_singleton := true;
                  _base_classes := ["Service"; "ServiceInterface"; "ABC"; "object"];
                  _instance := Some 3 |}) 3).
    + vm_compute. reflexivity.
    + reflexivity.
    + reflexivity.
  - apply (proj2 (proj2 (proj2 (proj2 (proj2
             (cached_instance_invariant Nested.classes Nested.leaf_only)))))
           1 "Node" ∅
           (0, new_component (getmro Nested.classes "Leaf") "Leaf" true)
           [("next", AnnClass "Leaf")] {[ "next" := VRef 0 ]}
           (after (assemble Nested.classes 1 "Leaf" ∅) Nested.leaf_only)
           1 _
           {| _type := "Leaf"; _is_singleton := true;
              _base_classes := ["Leaf"; "Node"; "object"];
              _instance := Some 0 |} 0).
    + reflexivity.
    + reflexivity.
    + reflexivity.
    + vm_compute. reflexivity.
    + vm_compute. reflexivity.
    + vm_compute. reflexivity.
    + reflexivity.
    + reflexivity.
  - vm_compute. reflexivity.
Defined.

(** [ClientDependingOnAllMultiServiceInterfaceImpls] gets both services. *)
Lemma list_parameter_gets_all_components_witness :
  ∃ s1 s2 instances o,
    advance loaded s1 ∧
    advance s2 (after (assemble classes 2
                         "ClientDependingOnAllMultiServiceInterfaceImpls" ∅) loaded) ∧
    assemble_each (assemble classes 1)
      (_type <$> filter (λ c, Is_true (matches c (AnnClass "MultiServiceInterface")))
                        (ENTERPRYTHON_COMPONENTS loaded))
      s1 instances s2 ∧
    length instances = length (_get_components (AnnClass "MultiServiceInterface") loaded) ∧
    Forall2
      (resolved loaded
         (after (assemble classes 2 "ClientDependingOnAllMultiServiceInterfaceImpls" ∅)
                loaded) 5)
      (_get_components (AnnClass "MultiServiceInterface") loaded) instances ∧
    heap (after (assemble classes 2 "ClientDependingOnAllMultiServiceInterfaceImpls" ∅)
                loaded) !! 5 = Some o ∧
    obj_class o = "ClientDependingOnAllMultiServiceInterfaceImpls" ∧
    obj_fields o !! "services" = Some (VList (VRef <$> instances)).
Proof.
  apply (list_parameter_gets_all_components classes 1
           "ClientDependingOnAllMultiServiceInterfaceImpls" ∅ loaded 5
           (after (assemble classes 2 "ClientDependingOnAllMultiServiceInterfaceImpls" ∅)
                  loaded)
           (needs "services" (AnnList (AnnClass "MultiServiceInterface")))
           (AnnClass "MultiServiceInterface")).
  - vm_compute. constructor.
  - decided.
  - vm_compute. constructor.
  - discriminate.
  - reflexivity.
  - reflexivity.
  - vm_compute. repeat constructor.
  - vm_compute. reflexivity.
Defined.

(** [ClientABDefaultB] gets the component and not [ServiceB('BDefault')]. *)
Lemma component_preferred_over_default_witness :
  ∃ s1 s2 instance o,
    advance loaded s1 ∧
    advance s2 (after (assemble classes 2 "ClientABDefaultB" ∅) loaded) ∧
    assemble classes 1 "ServiceB" ∅ s1 = (Ok instance, s2) ∧
    resolved loaded (after (assemble classes 2 "ClientABDefaultB" ∅) loaded) 5
      (5, {| _type := "ServiceB"; _is_singleton := true;
             _base_classes := ["ServiceB"; "tuple"; "object"];
             _instance := None |}) instance ∧
    (@None addr = None →
     ∀ d, VRef b_default = VRef d → d < length (heap loaded) →
          VRef instance ≠ VRef b_default) ∧
    heap (after (assemble classes 2 "ClientABDefaultB" ∅) loaded) !! 5 = Some o ∧
    obj_class o = "ClientABDefaultB" ∧
    obj_fields o !! "service_b" = Some (VRef instance).
Proof.
  apply (component_preferred_over_default classes 1 "ClientABDefaultB" ∅ loaded 5
           (after (assemble classes 2 "ClientABDefaultB" ∅) loaded)
           (optional "service_b" (AnnClass "ServiceB") (VRef b_default))
           (VRef b_default)
           (5, {| _type := "ServiceB"; _is_singleton := true;
                  _base_classes := ["ServiceB"; "tuple"; "object"];
                  _instance := None |})).
  - vm_compute. repeat constructor.
  - decided.
  - vm_compute. repeat constructor.
  - discriminate.
  - reflexivity.
  - reflexivity.
  - vm_compute. constructor.
  - vm_compute. constructor.
  - vm_compute. reflexivity.
Defined.

(** Before anything is registered,
    [ClientDependingOnAllMultiServiceInterfaceImpls] gets the empty list. *)
Lemma list_parameter_without_components_witness :
  bind_parameter (assemble classes 0)
    ("services", AnnList (AnnClass "MultiServiceInterface")) ∅ at_import
  = (Ok (<["services" := VList []]> ∅), at_import) ∧
  ∃ o,
    heap (after (assemble classes 1 "ClientDependingOnAllMultiServiceInterfaceImpls" ∅)
                at_import) !! 3 = Some o ∧
    obj_class o = "ClientDependingOnAllMultiServiceInterfaceImpls" ∧
    obj_fields o !! "services" = Some (VList []).
Proof.
  assert (Hnone : _get_components (AnnClass "MultiServiceInterface") at_import = [])
    by reflexivity.
  split.
  - apply (proj1 (list_parameter_without_components classes
                    (AnnClass "MultiServiceInterface") at_import Hnone)).
    reflexivity.
  - apply (proj2 (list_parameter_without_components classes
                    (AnnClass "MultiServiceInterface") at_import Hnone)
             0 "ClientDependingOnAllMultiServiceInterfaceImpls" ∅ 3
             (after (assemble classes 1 "ClientDependingOnAllMultiServiceInterfaceImpls" ∅)
                    at_import)
             (needs "services" (AnnList (AnnClass "MultiServiceInterface")))).
    + vm_compute. constructor.
    + decided.
    + vm_compute. constructor.
    + discriminate.
    + reflexivity.
    + reflexivity.
    + vm_compute. reflexivity.
Defined.





End OnTheTests.

(** * Further properties of the registry and of [assemble] *)

(** ** Registration *)

Section Registration.

Variable classes : cname → class_info.

Lemma get_components_empty_iff the_type st :
  _get_components (AnnClass the_type) st = [] ↔
  Forall (λ c, the_type ∉ _base_classes c) (ENTERPRYTHON_COMPONENTS st).
Proof.
  rewrite Forall_lookup. split.
  - intros Hnone r c Hr Hin.
    assert (Hmem : (r, c) ∈ _get_components (AnnClass the_type) st).
    { apply elem_of_get_components. split; [done|]. by apply bool_decide_eq_true_2. }
    rewrite Hnone in Hmem. by apply elem_of_nil in Hmem.
  - intros Hall.
    destruct (_get_components (AnnClass the_type) st) as [|[r c] l] eqn:Hcomps; [done|].
    assert (Hmem : (r, c) ∈ _get_components (AnnClass the_type) st)
      by (rewrite Hcomps; constructor).
    apply elem_of_get_components in Hmem as [Hr Hm].
    apply bool_decide_eq_true_1 in Hm. by destruct (Hall r c Hr).
Qed.

Lemma get_components_app the_type (l : list _Component) (x : _Component) h h' :
  _get_components the_type {| ENTERPRYTHON_COMPONENTS := l ++ [x]; heap := h |}
  = _get_components the_type {| ENTERPRYTHON_COMPONENTS := l; heap := h' |}
    ++ (if matches x the_type then [(length l, x)] else []).
Proof.
  unfold _get_components. simpl. rewrite imap_app, filter_app. f_equal.
  simpl. rewrite filter_cons, filter_nil, Nat.add_0_r.
  simpl. destruct (decide (Is_true (matches x the_type))) as [Hm|Hm];
    destruct (matches x the_type); done.
Qed.

(** What an operation does to the state: a call of [assemble] advances it,
    a successful registration appends one component, a failed one does
    nothing. *)
Lemma step_cases st st' :
  step classes st st' →
  advance st st' ∨
  ∃ the_type singleton,
    cls_abstract (classes the_type) = false ∧
    _get_components (AnnClass the_type) st = [] ∧
    st' = with_component classes st the_type singleton.
Proof.
  destruct 1 as [fuel t kw st o st' H|singleton t st o st' H].
  - left. by eapply assemble_advance.
  - destruct o as [t'| |].
    + apply component_Ok_inv in H as (c & -> & -> & Habs & Hadd).
      apply add_component_Ok_inv in Hadd as [Hnone ->]. right. by exists c, singleton.
    + left. unfold component in H.
      destruct t as [c|f]; [|injection H as _ <-; apply advance_refl].
      destruct (cls_abstract (classes c)); [injection H as _ <-; apply advance_refl|].
      apply bind_inv in H as [(u & s1 & Hadd & H)|[(e' & Hadd & _)|[Hadd ?]]]; try done.
      destruct (add_component_failure _ _ _ _ _ _ Hadd) as [?|[-> _]]; [done|].
      apply advance_refl.
    + left. unfold component in H. destruct t as [c|f]; [|done].
      destruct (cls_abstract (classes c)); [done|].
      apply bind_inv in H as [(u & s1 & Hadd & H)|[(e' & Hadd & ?)|[Hadd _]]]; try done.
      destruct (add_component_failure _ _ _ _ _ _ Hadd) as [?|[_ (? & ?)]]; done.
Qed.

Lemma add_component_rejected the_type singleton st comp :
  comp ∈ _get_components (AnnClass the_type) st →
  ∃ e, _add_component classes the_type singleton st = (Raise (TypeError e), st).
Proof.
  intros Hin. unfold _add_component.
  destruct (_get_components (AnnClass the_type) st) as [|rc [|rc' l]] eqn:Hcomps.
  - by apply elem_of_nil in Hin.
  - rewrite (bind_Ok _ _ _ _ _ (get_component_one _ _ _ Hcomps)). eauto.
  - unfold bind. rewrite get_component_many by (rewrite Hcomps; simpl; lia). eauto.
Qed.

Lemma steps_matches_le the_type st st' :
  rtc (step classes) st st' →
  length (_get_components the_type st) ≤ length (_get_components the_type st').
Proof.
  induction 1 as [|st1 st2 st3 Hstep _ IH]; [done|].
  etrans; [|exact IH]. clear IH.
  destruct (step_cases _ _ Hstep) as [[_ Hall]|(t & singleton & _ & _ & ->)].
  - apply Nat.eq_le_incl.
    rewrite <-(length_map (λ comp : nat * _Component, get_type comp.2)
                          (_get_components the_type st1)).
    rewrite <-(length_map (λ comp : nat * _Component, get_type comp.2)
                          (_get_components the_type st2)).
    by rewrite !get_components_types, (matching_types_evolves _ _ the_type _ _ Hall).
  - unfold with_component. rewrite (get_components_app _ _ _ _ (heap st1)).
    rewrite length_app. destruct st1. simpl. lia.
Qed.

(** The component appended by a registration is there, with its method
    resolution order, in every later state. *)
Lemma registered_with_bases singleton the_type st0 t st1 st :
  component classes singleton (TClass the_type) st0 = (Ok t, st1) →
  rtc (step classes) st1 st →
  ∃ c, ENTERPRYTHON_COMPONENTS st !! length (ENTERPRYTHON_COMPONENTS st0) = Some c ∧
       _type c = the_type ∧
       _base_classes c = getmro classes the_type.
Proof.
  intros Hreg Hsteps.
  apply component_Ok_inv in Hreg as (c0 & [= <-] & -> & Habs & Hadd).
  apply add_component_Ok_inv in Hadd as [_ ->].
  apply steps_extend in Hsteps as [_ Hext]. simpl in Hext.
  destruct (Hext (length (ENTERPRYTHON_COMPONENTS st0))
                 (new_component (getmro classes the_type) the_type singleton))
    as (c & Hc & Ht & _ & Hb & _).
  { rewrite lookup_app_r by done. by rewrite Nat.sub_diag. }
  eauto.
Qed.

(** X1: decorating a class that is not abstract, and that no registered
    component has among its base classes, succeeds: it hands the class
    back and appends one component for it, with the flag given and an
    empty cache, after all the others; the heap stays as it is. *)
Theorem registration_accepts singleton the_type st :
  cls_abstract (classes the_type) = false →
  Forall (λ c, the_type ∉ _base_classes c) (ENTERPRYTHON_COMPONENTS st) →
  component classes singleton (TClass the_type) st
  = (Ok (TClass the_type), with_component classes st the_type singleton).
Proof.
  intros Habs Hall. apply get_components_empty_iff in Hall.
  unfold component, _add_component. rewrite Habs.
  unfold bind at 1. unfold bind at 1.
  by rewrite (get_component_none _ _ Hall).
Qed.

(** X2: in every other case the decorator raises a [TypeError] and changes
    nothing: for something that is no class, for an abstract class, and for
    a class that some registered component has among its base classes, be
    it the class itself or a subclass of it. *)
Theorem registration_rejects singleton the_type st :
  (∀ c, the_type = TClass c →
     cls_abstract (classes c) = true ∨
     Exists (λ comp, c ∈ _base_classes comp) (ENTERPRYTHON_COMPONENTS st)) →
  ∃ e, component classes singleton the_type st = (Raise (TypeError e), st).
Proof.
  intros Hbad. unfold component. destruct the_type as [c|f]; [|by eexists].
  destruct (cls_abstract (classes c)) eqn:Habs; [by eexists|].
  destruct (Hbad c eq_refl) as [?|Hex]; [congruence|].
  apply Exists_exists in Hex as (comp & Hin & Hbase).
  apply list_elem_of_lookup in Hin as (r & Hr).
  destruct (add_component_rejected c singleton st (r, comp)) as (e & Hadd).
  { apply elem_of_get_components. split; [done|]. by apply bool_decide_eq_true_2. }
  exists e. unfold bind. by rewrite Hadd.
Qed.

(** X3: once a class is registered, no class of its method resolution
    order, the class itself or any of its base classes, can be registered
    any more, whatever happens in between: the decorator raises a
    [TypeError] and changes nothing. *)
Theorem base_of_registered_rejected
    singleton singleton' derived base st0 t st1 st :
  component classes singleton (TClass derived) st0 = (Ok t, st1) →
  rtc (step classes) st1 st →
  base ∈ getmro classes derived →
  ∃ e, component classes singleton' (TClass base) st = (Raise (TypeError e), st).
Proof.
  intros Hreg Hsteps Hbase.
  destruct (registered_with_bases _ _ _ _ _ _ Hreg Hsteps) as (c & Hc & _ & Hb).
  unfold component. destruct (cls_abstract (classes base)); [by eexists|].
  destruct (add_component_rejected base singleton' st
              (length (ENTERPRYTHON_COMPONENTS st0), c)) as (e & Hadd).
  { apply elem_of_get_components. split; [done|].
    apply bool_decide_eq_true_2. by rewrite Hb. }
  exists e. unfold bind. by rewrite Hadd.
Qed.

(** X4: components are never removed and never stop matching, so a type
    for which more than one component is found stays ambiguous: in every
    later state the lookup raises the ambiguous-dependency [TypeError], and
    so does [assemble] for that type, before it touches anything. *)
Theorem ambiguity_is_permanent the_type st st' :
  1 < length (_get_components (AnnClass the_type) st) →
  rtc (step classes) st st' →
  _get_component (AnnClass the_type) st'
  = (Raise (TypeError (AmbiguousDependency (AnnClass the_type))), st') ∧
  ∀ fuel kwargs,
    assemble classes (S fuel) the_type kwargs st'
    = (Raise (TypeError (AmbiguousDependency (AnnClass the_type))), st').
Proof.
  intros Hmany Hsteps.
  pose proof (steps_matches_le (AnnClass the_type) _ _ Hsteps) as Hle.
  assert (Hget : _get_component (AnnClass the_type) st'
                 = (Raise (TypeError (AmbiguousDependency (AnnClass the_type))), st'))
    by (apply get_component_many; lia).
  split; [done|]. intros fuel kwargs. simpl. unfold bind. by rewrite Hget.
Qed.

(** X5: registering a subclass of a registered class is accepted when
    nothing provides the subclass yet, and from then on the base class has
    two components: every later [assemble] of the base class raises the
    ambiguous-dependency [TypeError] and changes nothing. *)
Theorem subclass_makes_base_ambiguous
    singleton singleton' base derived st0 t st1 st2 t' st3 st :
  component classes singleton (TClass base) st0 = (Ok t, st1) →
  rtc (step classes) st1 st2 →
  component classes singleton' (TClass derived) st2 = (Ok t', st3) →
  base ∈ getmro classes derived →
  rtc (step classes) st3 st →
  ∀ fuel kwargs,
    assemble classes (S fuel) base kwargs st
    = (Raise (TypeError (AmbiguousDependency (AnnClass base))), st).
Proof.
  intros Hbase Hsteps2 Hderived Hin Hsteps fuel kwargs.
  destruct (registered_with_bases _ _ _ _ _ _ Hbase Hsteps2) as (c & Hc & _ & Hb).
  assert (Hone : 1 ≤ length (_get_components (AnnClass base) st2)).
  { assert (Hmem : (length (ENTERPRYTHON_COMPONENTS st0), c)
                   ∈ _get_components (AnnClass base) st2).
    { apply elem_of_get_components. split; [done|].
      apply bool_decide_eq_true_2. rewrite Hb. constructor. }
    destruct (_get_components (AnnClass base) st2); [by apply elem_of_nil in Hmem|].
    simpl. lia. }
  apply component_Ok_inv in Hderived as (d & [= <-] & -> & _ & Hadd).
  apply add_component_Ok_inv in Hadd as [_ ->].
  assert (Htwo : 1 < length (_get_components (AnnClass base)
                               (with_component classes st2 derived singleton'))).
  { unfold with_component. rewrite (get_components_app _ _ _ _ (heap st2)).
    rewrite length_app. simpl. rewrite bool_decide_eq_true_2 by done.
    destruct st2. simpl in *. lia. }
  pose proof (steps_matches_le (AnnClass base) _ _ Hsteps) as Hle.
  simpl. unfold bind. rewrite get_component_many; [done|]. unfold with_component in *. lia.
Qed.

(** X15: a registered component is found for the classes of its method
    resolution order and for no other: in every later state the component
    a registration appended, with the type and flag it was given, is among
    the components found for a class exactly when that class is the
    registered class or one of its base classes. *)
Theorem registered_found_for_its_bases singleton the_type st0 t st1 st requested :
  component classes singleton (TClass the_type) st0 = (Ok t, st1) →
  rtc (step classes) st1 st →
  ∃ c,
    ENTERPRYTHON_COMPONENTS st !! length (ENTERPRYTHON_COMPONENTS st0) = Some c ∧
    _type c = the_type ∧ _is_singleton c = singleton ∧
    ((length (ENTERPRYTHON_COMPONENTS st0), c)
       ∈ _get_components (AnnClass requested) st
     ↔ requested ∈ getmro classes the_type).
Proof.
  intros Hreg Hsteps.
  apply component_Ok_inv in Hreg as (c0 & [= <-] & -> & Habs & Hadd).
  apply add_component_Ok_inv in Hadd as [_ ->].
  apply steps_extend in Hsteps as [_ Hext]. simpl in Hext.
  destruct (Hext (length (ENTERPRYTHON_COMPONENTS st0))
                 (new_component (getmro classes the_type) the_type singleton))
    as (c & Hc & Ht & Hs & Hb & _).
  { rewrite lookup_app_r by done. by rewrite Nat.sub_diag. }
  exists c. split; [done|]. split; [done|]. split; [done|].
  rewrite elem_of_get_components. unfold matches. rewrite Hb. simpl.
  rewrite bool_decide_eq_true. split; [by intros [_ ?]|by intros ?].
Qed.

End Registration.

(** ** The registry stays well formed *)

Section WellFormed.

Variable classes : cname → class_info.

Lemma well_formed_types_NoDup st :
  well_formed classes st → NoDup (_type <$> ENTERPRYTHON_COMPONENTS st).
Proof.
  intros [Hmro Hfresh]. apply NoDup_alt. intros i j t Hi Hj.
  rewrite list_lookup_fmap in Hi, Hj.
  destruct (ENTERPRYTHON_COMPONENTS st !! i) as [ci|] eqn:Hci; [|done].
  destruct (ENTERPRYTHON_COMPONENTS st !! j) as [cj|] eqn:Hcj; [|done].
  simpl in Hi, Hj. injection Hi as Hi. injection Hj as Hj.
  destruct (Hmro _ _ Hci) as [Hbi _]. destruct (Hmro _ _ Hcj) as [Hbj _].
  destruct (Nat.lt_trichotomy i j) as [Hlt|[->|Hlt]]; [|done|]; exfalso.
  - apply (Hfresh j i cj ci Hlt Hci Hcj). rewrite Hbi, Hj, <-Hi. constructor.
  - apply (Hfresh i j ci cj Hlt Hcj Hci). rewrite Hbj, Hi, <-Hj. constructor.
Qed.

Lemma step_well_formed st st' :
  step classes st st' → well_formed classes st → well_formed classes st'.
Proof.
  intros Hstep [Hmro Hfresh].
  destruct (step_cases _ _ _ Hstep) as [[_ Hall]|(t & singleton & Habs & Hnone & ->)].
  - split.
    + intros r c' Hr. destruct (Forall2_lookup_r _ _ _ _ _ Hall Hr) as (c & Hc & Ht & _ & Hb & _).
      rewrite Ht, Hb. by apply (Hmro r).
    + intros r r' c c' Hlt Hr' Hr.
      destruct (Forall2_lookup_r _ _ _ _ _ Hall Hr) as (c0 & Hc0 & Ht & _).
      destruct (Forall2_lookup_r _ _ _ _ _ Hall Hr') as (c0' & Hc0' & _ & _ & Hb & _).
      rewrite Ht, Hb. by apply (Hfresh r r').
  - apply get_components_empty_iff in Hnone. rewrite Forall_lookup in Hnone.
    unfold with_component. simpl. split.
    + intros r c Hr. apply lookup_app_Some in Hr as [Hr|[_ Hr]]; [by apply (Hmro r)|].
      apply list_lookup_singleton_Some in Hr as [_ <-]. done.
    + intros r r' c c' Hlt Hr' Hr.
      apply lookup_app_Some in Hr as [Hr|[Hlen Hr]].
      * apply lookup_app_Some in Hr' as [Hr'|[Hlen' _]]; [by apply (Hfresh r r')|].
        apply lookup_lt_Some in Hr. lia.
      * apply list_lookup_singleton_Some in Hr as [Hr <-]. simpl.
        apply lookup_app_Some in Hr' as [Hr'|[Hlen' _]]; [by apply (Hnone r')|lia].
Qed.

(** X6: a registry that is well formed, as the empty one is, stays so
    under calls of [assemble] and registrations: every component carries
    the method resolution order of its class, which is not abstract, no
    component is registered for a class that an earlier one provides, and
    no class is registered twice. *)
Theorem registry_stays_well_formed st st' :
  well_formed classes st → rtc (step classes) st st' →
  well_formed classes st' ∧ NoDup (_type <$> ENTERPRYTHON_COMPONENTS st').
Proof.
  intros Hwf Hsteps.
  assert (Hwf' : well_formed classes st').
  { induction Hsteps as [|st1 st2 st3 Hstep _ IH]; [done|].
    apply IH. by eapply step_well_formed. }
  split; [done|]. by apply well_formed_types_NoDup.
Qed.

(** X13: [assemble], whatever its outcome, registers nothing and removes
    nothing: type, singleton flag and base classes of every component are
    as before; and it only allocates: the objects that were in the heap
    are still there, unchanged, at their addresses. *)
Theorem assemble_keeps_registry fuel the_type kwargs st o st' :
  assemble classes fuel the_type kwargs st = (o, st') →
  static <$> ENTERPRYTHON_COMPONENTS st' = static <$> ENTERPRYTHON_COMPONENTS st ∧
  heap st `prefix_of` heap st'.
Proof.
  intros H. destruct (assemble_advance _ _ _ _ _ _ _ H) as [Hp Hall].
  split; [|done]. clear -Hall.
  induction Hall as [|c c' l l' (Ht & Hs & Hb & _) _ IH]; [done|].
  rewrite !fmap_cons, IH. unfold static. by rewrite Ht, Hs, Hb.
Qed.

End WellFormed.

(** ** The caches stay sound *)

Section CacheSound.

Variable classes : cname → class_info.

Section Loops.

Variable rec : cname → gmap string value → M addr.
Hypothesis rec_sound :
  ∀ t kw st o st', rec t kw st = (o, st') → cache_sound st → cache_sound st'.

Lemma mapM_sound ts st o st' :
  mapM (λ t, rec t ∅) ts st = (o, st') → cache_sound st → cache_sound st'.
Proof.
  revert st o. induction ts as [|t ts IH]; intros st o H Hs; simpl in H.
  { by injection H as <- <-. }
  apply bind_inv in H as [(a & s1 & Ha & H)|[(e & Ha & _)|[Ha _]]];
    try (by eapply rec_sound).
  apply rec_sound in Ha; [|done].
  apply bind_inv in H as [(l & s2 & Hl & H)|[(e & Hl & _)|[Hl _]]];
    try (by eapply IH).
  injection H as <- <-. by eapply IH.
Qed.

Lemma bind_parameter_sound parameter arguments st o st' :
  bind_parameter rec parameter arguments st = (o, st') →
  cache_sound st → cache_sound st'.
Proof.
  destruct parameter as [name ann]. unfold bind_parameter.
  destruct (_is_list_type ann); intros H Hs.
  - apply bind_inv in H as [(elem & s0 & He & H)|[(e & He & _)|[He _]]];
      [|destruct ann; try done; by injection He as _ <-|by destruct ann].
    assert (s0 = st) as -> by (destruct ann; try done; by injection He as _ <-).
    apply bind_inv in H as [(comps & s0 & [= <- <-] & H)|[(e & ? & _)|[? _]]];
      try done.
    apply bind_inv in H as [(l & s1 & Hl & H)|[(e & Hl & _)|[Hl _]]];
      try (by eapply mapM_sound).
    injection H as <- <-. by eapply mapM_sound.
  - apply bind_inv in H as [(found & s0 & Hg & H)|[(e & Hg & _)|[Hg _]]];
      apply get_component_state in Hg as ->; try done.
    destruct found as [comp|]; [|by injection H as <- <-].
    apply bind_inv in H as [(a & s1 & Ha & H)|[(e & Ha & _)|[Ha _]]];
      try (by eapply rec_sound).
    injection H as <- <-. by eapply rec_sound.
Qed.

Lemma bind_parameters_sound parameters arguments st o st' :
  bind_parameters rec parameters arguments st = (o, st') →
  cache_sound st → cache_sound st'.
Proof.
  revert arguments st. induction parameters as [|p ps IH]; intros arguments st H Hs.
  { by injection H as <- <-. }
  change (bind (bind_parameter rec p arguments) (bind_parameters rec ps) st = (o, st')) in H.
  apply bind_inv in H as [(args & s1 & Hp & H)|[(e & Hp & _)|[Hp _]]];
    try (by eapply bind_parameter_sound).
  eapply IH; [done|]. by eapply bind_parameter_sound.
Qed.

End Loops.

Lemma call_sound the_type arguments st o st' :
  call classes the_type arguments st = (o, st') → cache_sound st → cache_sound st'.
Proof.
  intros H Hs. destruct (call_not_Ok _ _ _ _ _ _ H) as [[a ->]|[_ ->]]; [|done].
  apply call_Ok_inv in H as (_ & -> & _). intros r c b Hr Hi. simpl in *.
  destruct (Hs r c b Hr Hi) as (Hsing & o & Ho & Hcls).
  split; [done|]. exists o. split; [by apply lookup_app_l_Some|done].
Qed.

Lemma set_instance_sound r c instance obj st o st' :
  ENTERPRYTHON_COMPONENTS st !! r = Some c →
  heap st !! instance = Some obj → obj_class obj ∈ _base_classes c →
  set_instance_if_singleton r instance st = (o, st') →
  cache_sound st → cache_sound st'.
Proof.
  intros Hr Hobj Hcls. unfold set_instance_if_singleton. rewrite Hr.
  destruct (_is_singleton c) eqn:Hsing; [|by intros [= <- <-]].
  destruct (_instance c) eqn:Hnone; intros [= <- <-] Hs; [done|].
  intros r' c' b Hr' Hi. simpl in *.
  destruct (decide (r' = r)) as [->|Hne].
  - rewrite list_lookup_insert_eq in Hr' by (by eapply lookup_lt_Some).
    injection Hr' as <-. simpl in *. injection Hi as <-. eauto.
  - rewrite list_lookup_insert_ne in Hr' by done. by apply (Hs r').
Qed.

Lemma stored_instance_state (stored : option (nat * _Component)) st o st' :
  match stored with
  | Some comp => get_instance comp.2
  | None => ret None
  end st = (o, st') → st' = st.
Proof.
  destruct stored as [comp|]; [|by intros [= <- <-]].
  unfold get_instance. destruct (_ || _); by intros [= <- <-].
Qed.

Lemma assemble_sound fuel the_type kwargs st o st' :
  assemble classes fuel the_type kwargs st = (o, st') →
  cache_sound st → cache_sound st'.
Proof.
  revert the_type kwargs st o st'.
  induction fuel as [|fuel IH]; intros the_type kwargs st o st' H Hs.
  { by injection H as <- <-. }
  simpl in H.
  apply bind_inv in H as [(stored & s0 & Hg & H)|[(e & Hg & _)|[Hg _]]];
    pose proof (get_component_state _ _ _ _ Hg) as ->; try done.
  apply get_component_Ok_inv in Hg as [Hcomps _].
  apply bind_inv in H as [(instance & s0 & Hi & H)|[(e & Hi & _)|[Hi _]]];
    apply stored_instance_state in Hi as ->; try done.
  destruct instance as [inst|]; [by injection H as <- <-|].
  unfold construct in H.
  apply bind_inv in H as [(ps & s0 & Hc & H)|[(e & Hc & _)|[Hc _]]];
    apply collect_parameters_state in Hc as ->; try done.
  apply bind_inv in H as [(args & s1 & Hb & H)|[(e & Hb & _)|[Hb _]]];
    try (by eapply (bind_parameters_sound _ (IH))).
  pose proof (bind_parameters_sound _ IH _ _ _ _ _ Hb Hs) as Hs1.
  pose proof (bind_parameters_advance _ _ _ _ _ _ (assemble_advance classes fuel) Hb)
    as Hadv1.
  apply bind_inv in H as [(a & s2 & Hcall & H)|[(e & Hcall & _)|[Hcall _]]];
    try (by eapply call_sound).
  pose proof (call_sound _ _ _ _ _ Hcall Hs1) as Hs2.
  pose proof (call_advance _ _ _ _ _ _ Hcall) as Hadv2.
  apply call_Ok_inv in Hcall as (-> & Hs2eq & _).
  assert (Hstore : ∀ o1 s3,
    match stored with
    | Some comp => set_instance_if_singleton comp.1 (length (heap s1))
    | None => ret ()
    end s2 = (o1, s3) → cache_sound s3).
  { intros o1 s3 Hset. destruct stored as [[r c]|]; [|by injection Hset as <- <-].
    assert (Hin : (r, c) ∈ _get_components (AnnClass the_type) st)
      by (rewrite Hcomps; constructor).
    apply elem_of_get_components in Hin as [Hr Hm].
    destruct (advance_extends _ _ (advance_trans _ _ _ Hadv1 Hadv2)) as [_ Hext].
    destruct (Hext r c Hr) as (c2 & Hr2 & _ & _ & Hb2 & _).
    eapply (set_instance_sound r c2 (length (heap s1))
              {| obj_class := the_type;
                 obj_fields := bound_fields (cls_signature (classes the_type)) args |});
      [done| | |exact Hset|done].
    - rewrite Hs2eq. simpl. rewrite lookup_app_r by done. by rewrite Nat.sub_diag.
    - simpl. rewrite Hb2. by apply bool_decide_eq_true_1 in Hm. }
  apply bind_inv in H as [(u & s3 & Hset & H)|[(e & Hset & _)|[Hset _]]];
    try (by eapply Hstore).
  injection H as <- <-. by eapply Hstore.
Qed.

Lemma component_state singleton the_type st o st' :
  component classes singleton the_type st = (o, st') →
  st' = st ∨ ∃ c, st' = with_component classes st c singleton.
Proof.
  intros H. destruct o as [t'| |].
  - apply component_Ok_inv in H as (c & -> & -> & _ & Hadd).
    apply add_component_Ok_inv in Hadd as [_ ->]. right. by exists c.
  - left. unfold component in H. destruct the_type as [c|f]; [|by injection H as _ <-].
    destruct (cls_abstract (classes c)); [by injection H as _ <-|].
    apply bind_inv in H as [(u & s1 & Hadd & H)|[(e' & Hadd & _)|[Hadd ?]]]; try done.
    by destruct (add_component_failure _ _ _ _ _ _ Hadd) as [?|[-> _]].
  - unfold component in H. destruct the_type as [c|f]; [|done].
    destruct (cls_abstract (classes c)); [done|].
    apply bind_inv in H as [(u & s1 & Hadd & H)|[(e' & Hadd & ?)|[Hadd _]]]; try done.
    destruct (add_component_failure _ _ _ _ _ _ Hadd) as [?|[_ (? & ?)]]; done.
Qed.

Lemma step_sound st st' :
  step classes st st' → cache_sound st → cache_sound st'.
Proof.
  intros Hstep Hs. destruct Hstep as [fuel t kw st o st' H|singleton t st o st' H].
  { by eapply assemble_sound. }
  destruct (component_state _ _ _ _ _ H) as [->|(c & ->)]; [done|].
  intros r c' b Hr Hi. unfold with_component in *. simpl in *.
  apply lookup_app_Some in Hr as [Hr|[_ Hr]]; [by apply (Hs r)|].
  apply list_lookup_singleton_Some in Hr as [_ <-]. done.
Qed.

(** X7: when the caches are sound, as they are in an empty registry, they
    stay sound under calls of [assemble] and registrations: a component
    that is no singleton never holds an instance, so that the assertion of
    [get_instance] never fails on a stored component, and the instance a
    singleton holds is an object of the heap whose class is among the base
    classes of the component. *)
Theorem caches_stay_sound st st' :
  cache_sound st → rtc (step classes) st st' →
  cache_sound st' ∧
  ∀ r c s, ENTERPRYTHON_COMPONENTS st' !! r = Some c →
    get_instance c s = (Ok (_instance c), s).
Proof.
  intros Hs Hsteps.
  assert (Hs' : cache_sound st').
  { induction Hsteps as [|st1 st2 st3 Hstep _ IH]; [done|].
    apply IH. by eapply step_sound. }
  split; [done|]. intros r c s Hr. unfold get_instance.
  destruct (_instance c) as [a|] eqn:Hi.
  - destruct (Hs' r c a Hr Hi) as [-> _]. done.
  - by rewrite orb_true_r.
Qed.


End CacheSound.

(** ** Edges of [assemble] *)

Section Edges.

Variable classes : cname → class_info.

Lemma collect_parameters_raises params st param :
  param ∈ params → p_name param ≠ "self" → p_kind param ≠ POSITIONAL_OR_KEYWORD →
  collect_parameters params st = (Raise (TypeError OnlyPositionalOrKeyword), st).
Proof.
  intros Hin Hself Hkind. induction params as [|p ps IH]; [by apply elem_of_nil in Hin|].
  simpl. apply elem_of_cons in Hin as [<-|Hin].
  - rewrite bool_decide_eq_false_2 by done. by destruct (p_kind param).
  - case_bool_decide; [by apply IH|].
    destruct (p_kind p); try done. unfold bind. by rewrite IH.
Qed.

(** X8: a parameter of the target that is not named [self] and is not of
    kind [POSITIONAL_OR_KEYWORD] (a star parameter, a keyword-only or
    positional-only one) makes [assemble] raise a [TypeError] before any
    dependency is assembled and before the target is called: the state is
    the one it started in. *)
Theorem unsupported_parameter_kind fuel the_type kwargs st param :
  nothing_cached the_type st →
  length (_get_components (AnnClass the_type) st) ≤ 1 →
  param ∈ cls_signature (classes the_type) →
  p_name param ≠ "self" →
  p_kind param ≠ POSITIONAL_OR_KEYWORD →
  assemble classes (S fuel) the_type kwargs st
  = (Raise (TypeError OnlyPositionalOrKeyword), st).
Proof.
  intros Hcache Hfew Hin Hself Hkind.
  assert (Hstored : ∃ stored,
    _get_components (AnnClass the_type) st = option_list stored).
  { destruct (_get_components (AnnClass the_type) st) as [|rc [|rc' l]];
      [by exists None|by exists (Some rc)|simpl in Hfew; lia]. }
  destruct Hstored as (stored & Hstored).
  rewrite (assemble_constructs _ _ _ _ _ _ Hstored Hcache). unfold construct, bind.
  by rewrite (collect_parameters_raises _ _ _ Hin Hself Hkind).
Qed.

(** X9: a parameter, not annotated as a list and given no value by the
    caller, for whose annotation more than one component is registered:
    its turn of the argument loop raises the ambiguous-dependency
    [TypeError] in whatever state the earlier parameters leave, and a call
    of [assemble] that gets to construct never returns an object. *)
Theorem ambiguous_parameter_fails the_type kwargs st param :
  nothing_cached the_type st →
  NoDup (p_name <$> cls_signature (classes the_type)) →
  param ∈ cls_signature (classes the_type) →
  p_name param ≠ "self" →
  _is_list_type (p_annotation param) = false →
  1 < length (_get_components (p_annotation param) st) →
  kwargs !! p_name param = None →
  (∀ rec arguments s, advance st s →
     bind_parameter rec (p_name param, p_annotation param) arguments s
     = (Raise (TypeError (AmbiguousDependency (p_annotation param))), s)) ∧
  (∀ fuel a st', assemble classes fuel the_type kwargs st ≠ (Ok a, st')).
Proof.
  intros Hcache Hnd Hin Hself Hlist Hmany _.
  assert (Hturn : ∀ rec arguments s, advance st s →
    bind_parameter rec (p_name param, p_annotation param) arguments s
    = (Raise (TypeError (AmbiguousDependency (p_annotation param))), s)).
  { intros rec arguments s [_ Hall]. unfold bind_parameter. rewrite Hlist.
    unfold bind. rewrite get_component_many; [done|].
    rewrite <-(length_map (λ comp : nat * _Component, get_type comp.2)).
    rewrite get_components_types, (matching_types_evolves _ _ _ _ _ Hall).
    rewrite <-get_components_types, length_map. done. }
  split; [done|]. intros [|fuel] a st' H; [done|].
  destruct (parameter_turn _ _ _ _ _ _ _ _ Hcache Hnd Hin Hself H)
    as (args1 & s1 & args2 & s2 & o & Hadv & _ & Hbind & _).
  by rewrite (Hturn _ _ _ Hadv) in Hbind.
Qed.

(** X10: when the one component found for the requested class is a
    singleton with an empty cache, the object [assemble] constructs is an
    object of the requested class, and it is cached in that component,
    also when the component was registered for a subclass of the requested
    class.  Every later call for which this component is found, the
    subclass included, returns this very object and changes nothing. *)
Theorem instance_cached_in_found_component fuel the_type kwargs st a st' comp :
  _get_components (AnnClass the_type) st = [comp] →
  _is_singleton comp.2 = true →
  _instance comp.2 = None →
  assemble classes (S fuel) the_type kwargs st = (Ok a, st') →
  ∃ c' o,
    ENTERPRYTHON_COMPONENTS st' !! comp.1 = Some c' ∧
    static c' = static comp.2 ∧ _instance c' = Some a ∧
    heap st' !! a = Some o ∧ obj_class o = the_type ∧
    ∀ fuel' requested kwargs',
      _get_components (AnnClass requested) st' = [(comp.1, c')] →
      assemble classes (S fuel') requested kwargs' st' = (Ok a, st').
Proof.
  intros Hcomps Hsing Hnone H. destruct comp as [r c]. simpl in Hcomps, Hsing, Hnone |- *.
  assert (Hin : (r, c) ∈ _get_components (AnnClass the_type) st)
    by (rewrite Hcomps; constructor).
  apply elem_of_get_components in Hin as [Hr Hm].
  destruct (assemble_registered_Ok _ _ _ _ _ _ _ _ _ Hr Hm H)
    as [(_ & Hi & _)|(_ & _ & Hcached)]; [congruence|].
  destruct (Hcached Hsing) as (c' & Hr' & Hi').
  assert (Hcache : nothing_cached the_type st).
  { unfold nothing_cached. rewrite Hcomps. by repeat constructor. }
  pose proof (assemble_advance _ _ _ _ _ _ _ H) as Hadv.
  apply assemble_constructed in H as (stored & H); [|done].
  apply construct_result in H as (args & s1 & _ & _ & _ & _ & Hobj).
  destruct (advance_extends _ _ Hadv) as [_ Hext].
  destruct (Hext r c Hr) as (c'' & Hr'' & Ht & Hs & Hb & _).
  assert (c'' = c') as -> by congruence.
  exists c'. eexists. split; [done|]. split; [unfold static; congruence|].
  split; [done|]. split; [exact Hobj|]. split; [done|].
  intros fuel' requested kwargs' Hfound. simpl.
  rewrite (bind_Ok _ _ _ _ _ (get_component_one _ _ _ Hfound)).
  unfold get_instance. simpl. rewrite Hs, Hsing. simpl.
  unfold bind, ret. by rewrite Hi'.
Qed.

(** X11: a parameter named [self] is skipped by the injection: whatever
    its annotation and whatever is registered, the object constructed has
    under that name the value of the caller, or else the declared
    default. *)
Theorem self_parameter_not_injected fuel the_type kwargs st a st' param :
  nothing_cached the_type st →
  NoDup (p_name <$> cls_signature (classes the_type)) →
  param ∈ cls_signature (classes the_type) →
  p_name param = "self" →
  assemble classes (S fuel) the_type kwargs st = (Ok a, st') →
  ∃ o, heap st' !! a = Some o ∧
       obj_fields o !! "self"
       = match kwargs !! "self" with
         | Some v => Some v
         | None => p_default param
         end.
Proof.
  intros Hcache Hnd Hin Hself H.
  apply assemble_constructed in H as (stored & H); [|done].
  apply construct_result in H as (args & s1 & Hb & _ & _ & _ & Hobj).
  eexists. split; [exact Hobj|]. simpl.
  rewrite <-Hself, (bound_fields_lookup _ _ _ Hnd Hin). unfold bound_value.
  rewrite (bind_parameters_other_names _ _ _ _ _ _ _ Hb); [done|].
  rewrite <-list_fmap_compose. intros Hmem.
  apply list_elem_of_fmap in Hmem as (q & Hq & Hmem).
  apply list_elem_of_filter in Hmem as [Hne _]. simpl in Hq. congruence.
Qed.

End Edges.

(** ** The further properties on the classes of the test suite *)

Section MoreOnTheTests.

Import Tests.

Local Ltac run := vm_compute; reflexivity.
Local Ltac decided := apply (bool_decide_unpack _); vm_compute; exact I.

(** [Service] is accepted by an empty registry. *)
Lemma registration_accepts_witness :
  component classes true (TClass "Service") at_import
  = (Ok (TClass "Service"), with_component classes at_import "Service" true).
Proof.
  apply (registration_accepts classes true "Service" at_import).
  - reflexivity.
  - constructor.
Defined.

(** The abstract [ServiceInterface] is refused. *)
Lemma registration_rejects_witness :
  ∃ e, component classes true (TClass "ServiceInterface") loaded
       = (Raise (TypeError e), loaded).
Proof.
  apply (registration_rejects classes true (TClass "ServiceInterface") loaded).
  intros c [= <-]. left. reflexivity.
Defined.

(** With [ServiceMultiA] registered, [MultiServiceInterface] is refused. *)
Lemma base_of_registered_rejected_witness :
  ∃ e, component classes false (TClass "MultiServiceInterface") Scenes.derived_only
       = (Raise (TypeError e), Scenes.derived_only).
Proof.
  apply (base_of_registered_rejected classes true false
           "ServiceMultiA" "MultiServiceInterface"
           at_import (TClass "ServiceMultiA") Scenes.derived_only Scenes.derived_only).
  - run.
  - apply rtc_refl.
  - vm_compute. apply list_elem_of_further, list_elem_of_here.
Defined.

(** [MultiServiceInterface] is ambiguous in the loaded registry, also after
    one more call. *)
Lemma ambiguity_is_permanent_witness :
  _get_component (AnnClass "MultiServiceInterface")
    (after (assemble classes 1 "Service" ∅) loaded)
  = (Raise (TypeError (AmbiguousDependency (AnnClass "MultiServiceInterface"))),
     after (assemble classes 1 "Service" ∅) loaded) ∧
  ∀ fuel kwargs,
    assemble classes (S fuel) "MultiServiceInterface" kwargs
      (after (assemble classes 1 "Service" ∅) loaded)
    = (Raise (TypeError (AmbiguousDependency (AnnClass "MultiServiceInterface"))),
       after (assemble classes 1 "Service" ∅) loaded).
Proof.
  apply (ambiguity_is_permanent classes "MultiServiceInterface" loaded).
  - vm_compute. lia.
  - apply rtc_once.
    apply (step_assemble classes 1 "Service" ∅ loaded (Ok 3)
             (after (assemble classes 1 "Service" ∅) loaded)).
    run.
Defined.

(** [MultiServiceInterface] registered, then [ServiceMultiA]. *)
Lemma subclass_makes_base_ambiguous_witness :
  assemble classes 1 "MultiServiceInterface" ∅ Scenes.base_and_derived
  = (Raise (TypeError (AmbiguousDependency (AnnClass "MultiServiceInterface"))),
     Scenes.base_and_derived).
Proof.
  apply (subclass_makes_base_ambiguous classes true true
           "MultiServiceInterface" "ServiceMultiA"
           at_import (TClass "MultiServiceInterface") Scenes.base_registered
           Scenes.base_registered (TClass "ServiceMultiA") Scenes.base_and_derived
           Scenes.base_and_derived).
  - run.
  - apply rtc_refl.
  - run.
  - vm_compute. apply list_elem_of_further, list_elem_of_here.
  - apply rtc_refl.
Defined.

(** The registry after [Service] was decorated. *)
Lemma registry_stays_well_formed_witness :
  well_formed classes service_only ∧
  NoDup (_type <$> ENTERPRYTHON_COMPONENTS service_only).
Proof.
  apply (registry_stays_well_formed classes at_import service_only).
  - split; intros r; intros; by destruct r.
  - apply rtc_once.
    apply (step_component classes true (TClass "Service") at_import
             (Ok (TClass "Service")) service_only).
    run.
Defined.

(** [Service] decorated and assembled. *)
Lemma caches_stay_sound_witness :
  cache_sound (after (assemble classes 1 "Service" ∅) service_only) ∧
  ∀ r c s,
    ENTERPRYTHON_COMPONENTS (after (assemble classes 1 "Service" ∅) service_only) !! r
    = Some c →
    get_instance c s = (Ok (_instance c), s).
Proof.
  apply (caches_stay_sound classes at_import).
  - intros r c a Hr. by destruct r.
  - eapply rtc_l.
    + apply (step_component classes true (TClass "Service") at_import
               (Ok (TClass "Service")) service_only).
      run.
    + apply rtc_once.
      apply (step_assemble classes 1 "Service" ∅ service_only (Ok 3)
               (after (assemble classes 1 "Service" ∅) service_only)).
      run.
Defined.

(** [assemble(Client)] in the loaded registry. *)
Lemma assemble_keeps_registry_witness :
  static <$> ENTERPRYTHON_COMPONENTS (after (assemble classes 2 "Client" ∅) loaded)
  = static <$> ENTERPRYTHON_COMPONENTS loaded ∧
  heap loaded `prefix_of` heap (after (assemble classes 2 "Client" ∅) loaded).
Proof.
  apply (assemble_keeps_registry classes 2 "Client" ∅ loaded (Ok 4)).
  run.
Defined.


(** A constructor with [*args]. *)
Lemma unsupported_parameter_kind_witness :
  assemble Scenes.classes 1 "Variadic" ∅ at_import
  = (Raise (TypeError OnlyPositionalOrKeyword), at_import).
Proof.
  apply (unsupported_parameter_kind Scenes.classes 0 "Variadic" ∅ at_import
           {| p_name := "args"; p_kind := VAR_POSITIONAL;
              p_annotation := AnnEmpty; p_default := None |}).
  - vm_compute. constructor.
  - vm_compute. lia.
  - vm_compute. constructor.
  - discriminate.
  - discriminate.
Defined.

(** [test_ambiguous]. *)
Lemma ambiguous_parameter_fails_witness :
  bind_parameter (assemble classes 1)
    ("service", AnnClass "MultiServiceInterface") ∅ loaded
  = (Raise (TypeError (AmbiguousDependency (AnnClass "MultiServiceInterface"))), loaded) ∧
  ∀ fuel a st',
    assemble classes fuel "ClientDependingOnOneOfTwoServices" ∅ loaded ≠ (Ok a, st').
Proof.
  destruct (ambiguous_parameter_fails classes "ClientDependingOnOneOfTwoServices" ∅ loaded
              (needs "service" (AnnClass "MultiServiceInterface"))) as [Hturn Hnever].
  - vm_compute. constructor.
  - decided.
  - vm_compute. constructor.
  - discriminate.
  - reflexivity.
  - vm_compute. lia.
  - reflexivity.
  - split; [|exact Hnever]. apply (Hturn (assemble classes 1) ∅ loaded), advance_refl.
Defined.

(** With only [ServiceMultiA] registered, [assemble(MultiServiceInterface)]
    caches an object of class [MultiServiceInterface] in the component of
    [ServiceMultiA], and [assemble(ServiceMultiA)] returns it. *)
Lemma instance_cached_in_found_component_witness :
  ∃ c' o,
    ENTERPRYTHON_COMPONENTS
      (after (assemble classes 1 "MultiServiceInterface" ∅) Scenes.derived_only) !! 0
    = Some c' ∧
    static c' = ("ServiceMultiA", true,
                 ["ServiceMultiA"; "MultiServiceInterface"; "ABC"; "object"]) ∧
    _instance c' = Some 3 ∧
    heap (after (assemble classes 1 "MultiServiceInterface" ∅) Scenes.derived_only) !! 3
    = Some o ∧
    obj_class o = "MultiServiceInterface" ∧
    assemble classes 1 "ServiceMultiA" ∅
      (after (assemble classes 1 "MultiServiceInterface" ∅) Scenes.derived_only)
    = (Ok 3, after (assemble classes 1 "MultiServiceInterface" ∅) Scenes.derived_only).
Proof.
  destruct (instance_cached_in_found_component classes 0 "MultiServiceInterface" ∅
              Scenes.derived_only 3
              (after (assemble classes 1 "MultiServiceInterface" ∅) Scenes.derived_only)
              (0, new_component (getmro classes "ServiceMultiA") "ServiceMultiA" true))
    as (c' & o & Hc' & Hstatic & Hi & Ho & Hcls & Hlater).
  - reflexivity.
  - reflexivity.
  - reflexivity.
  - run.
  - exists c', o. split; [exact Hc'|]. split; [exact Hstatic|]. split; [exact Hi|].
    split; [exact Ho|]. split; [exact Hcls|].
    apply (Hlater 0 "ServiceMultiA" ∅).
    vm_compute in Hc'. injection Hc' as <-. reflexivity.
Defined.

(** A function whose parameter is named [self]: the registered [Service]
    is not injected. *)
Lemma self_parameter_not_injected_witness :
  ∃ o, heap (after (assemble Scenes.classes 1 "greet" {[ "self" := VInt 7 ]})
                   service_only) !! 3 = Some o ∧
       obj_fields o !! "self"
       = match ({[ "self" := VInt 7 ]} : gmap string value) !! "self" with
         | Some v => Some v
         | None => p_default (needs "self" (AnnClass "Service"))
         end.
Proof.
  apply (self_parameter_not_injected Scenes.classes 0 "greet" {[ "self" := VInt 7 ]}
           service_only 3
           (after (assemble Scenes.classes 1 "greet" {[ "self" := VInt 7 ]}) service_only)
           (needs "self" (AnnClass "Service"))).
  - vm_compute. constructor.
  - decided.
  - vm_compute. constructor.
  - reflexivity.
  - run.
Defined.

(** The component of [Service] is found for [ServiceInterface]. *)
Lemma registered_found_for_its_bases_witness :
  ∃ c,
    ENTERPRYTHON_COMPONENTS service_only !! length (ENTERPRYTHON_COMPONENTS at_import)
    = Some c ∧
    _type c = "Service" ∧ _is_singleton c = true ∧
    ((length (ENTERPRYTHON_COMPONENTS at_import), c)
       ∈ _get_components (AnnClass "ServiceInterface") service_only
     ↔ "ServiceInterface" ∈ getmro classes "Service").
Proof.
  apply (registered_found_for_its_bases classes true "Service" at_import
           (TClass "Service") service_only service_only "ServiceInterface").
  - run.
  - apply rtc_refl.
Defined.

End MoreOnTheTests.
